(** * log_monitor: the tailing / merge engine of src/share/log_monitor.hpp

    A shallow embedding of [log_monitor] and of the part of the C++ stream
    library it relies on ([std::ifstream], [std::getline], [tellg],
    [seekg]), followed by the properties of the historical buffer
    ([initial_lines_]), of the offset table ([read_position_]) and of the
    incremental read ([call_callback]). *)

From Stdlib Require Import ZArith NArith Lia Ascii String Sorted.
From stdpp Require Import gmap strings list fin_maps.

Local Open Scope string_scope.
Local Open Scope list_scope.
Local Open Scope nat_scope.
Local Open Scope stdpp_scope.

(** ** Strings *)

Module Str.

(** The line terminator of [std::getline]: the byte 10. *)
Definition newline : ascii := "010"%char.

Definition nl : string := String newline EmptyString.

(** [drop n s] is [s] without its first [n] characters. *)
Fixpoint drop (n : nat) (s : string) : string :=
  match n, s with
  | 0, _ => s
  | S n', String _ s' => drop n' s'
  | S _, EmptyString => EmptyString
  end.

(** [s] holds no line terminator. *)
Fixpoint no_newline (s : string) : bool :=
  match s with
  | EmptyString => true
  | String c s' => negb (Ascii.eqb c newline) && no_newline s'
  end.

(** [s] is not empty and its last character is not a terminator: the file
    ends in the middle of a line. *)
Fixpoint ends_unterminated (s : string) : bool :=
  match s with
  | EmptyString => false
  | String c EmptyString => negb (Ascii.eqb c newline)
  | String _ s' => ends_unterminated s'
  end.

(** The lines of a text, in order: every terminated line, then the
    trailing fragment when the text does not end with a terminator. *)
Fixpoint lines (s : string) : list string :=
  match s with
  | EmptyString => []
  | String c s' =>
      if Ascii.eqb c newline then EmptyString :: lines s'
      else match lines s' with
           | [] => [String c EmptyString]
           | l :: ls => String c l :: ls
           end
  end.

End Str.

(** ** The input stream

    [std::ifstream] restricted to what the monitor uses. The state of a
    stream is the content of the file it was opened on, the get position
    and the two state bits [eofbit] and [failbit] ([badbit], the bit of
    device errors, is not modelled). *)

(** [std::streampos], with [pos_type(-1)] the value of a failed [tellg]. *)
Abbreviation streampos := Z (only parsing).

Record ifstream := mk_ifstream {
  content : string;
  gpos : nat;
  eofbit : bool;
  failbit : bool
}.

Definition good (s : ifstream) : bool := negb (eofbit s) && negb (failbit s).

Definition setstate_failbit (s : ifstream) : ifstream :=
  mk_ifstream (content s) (gpos s) (eofbit s) true.

(** A file system maps the path of a file that can be opened to its content. *)
Definition ifstream_open (fs : gmap string string) (file_path : string) : ifstream :=
  match fs !! file_path with
  | Some c => mk_ifstream c 0 false false
  | None => mk_ifstream EmptyString 0 false true
  end.

(** The characters [std::getline] extracts from the unread part of the
    file: the line, the number of characters extracted (the terminator is
    extracted and not stored) and whether the end of the file was hit. *)
Fixpoint extract_line (rest : string) : string * nat * bool :=
  match rest with
  | EmptyString => (EmptyString, 0, true)
  | String c rest' =>
      if Ascii.eqb c Str.newline then (EmptyString, 1, false)
      else let '(l, n, e) := extract_line rest' in (String c l, S n, e)
  end.

(** [std::getline(stream, line)]. The sentry fails on a stream that is not
    good and sets [failbit]; otherwise [line] is erased and characters are
    extracted up to the terminator or the end of the file, which sets
    [eofbit]; [failbit] is set only when nothing was extracted, so that the
    fragment a file ends with is a line like the others, read with
    [eofbit] set. *)
Definition getline (s : ifstream) (line : string) : ifstream * string :=
  if good s then
    let '(l, n, e) := extract_line (Str.drop (gpos s) (content s)) in
    (mk_ifstream (content s) (gpos s + n) e (Nat.eqb n 0), l)
  else (setstate_failbit s, line).

(** [stream.tellg()]: the sentry again sets [failbit] on a stream that is
    not good, and the result is then [pos_type(-1)]. *)
Definition tellg (s : ifstream) : ifstream * streampos :=
  if good s then (s, Z.of_nat (gpos s)) else (setstate_failbit s, (-1)%Z).

(** [stream.seekg(pos)]: clears [eofbit]; a position before the start of
    the file is refused by the file buffer and sets [failbit]. *)
Definition seekg (s : ifstream) (pos : streampos) : ifstream :=
  if failbit s then mk_ifstream (content s) (gpos s) false true
  else if (pos <? 0)%Z then mk_ifstream (content s) (gpos s) false true
  else mk_ifstream (content s) (Z.to_nat pos) false false.

(** [while (std::getline(stream, line)) { body(line); read_position =
    stream.tellg(); }], the loop shared by the historical scan and the
    incremental read. The condition is [!stream.fail()]. *)
Fixpoint getline_loop {St : Type} (body : string -> St -> St) (fuel : nat)
    (stream : ifstream) (line : string) (read_position : streampos) (st : St)
  : ifstream * streampos * St :=
  match fuel with
  | 0 => (stream, read_position, st)
  | S fuel' =>
      let '(stream1, line1) := getline stream line in
      if failbit stream1 then (stream1, read_position, st)
      else
        let st1 := body line1 st in
        let '(stream2, pos) := tellg stream1 in
        getline_loop body fuel' stream2 line1 pos st1
  end.

(** Every successful [getline] extracts a character, so the loop leaves
    through its condition within this many iterations
    ([getline_loop_more_fuel] below: more fuel changes nothing). *)
Definition loop_fuel (s : ifstream) : nat := 2 + String.length (content s).

(** ** The monitor *)

(** Modelled from the spec: the file size probe of filesystem.hpp, which
    "given a path, optionally returns its current byte length (absent if
    the file does not exist)". *)
Definition file_size (fs : gmap string string) (path : string) : option Z :=
  (fun c => Z.of_nat (String.length c)) <$> fs !! path.

(** The state of a [log_monitor]. [callback_] tells whether the
    [std::function] holds a target; the invocations of the callback are
    collected in a trace. *)
Record log_monitor := mk_log_monitor {
  callback_ : bool;
  initial_lines_ : list (N * string);
  read_position_ : gmap string streampos;
  files_ : list string
}.

Definition max_initial_lines : nat := 250.

(** [while (initial_lines_.size() > max_initial_lines)
      initial_lines_.erase(initial_lines_.begin());] *)
Fixpoint erase_while_over (initial_lines : list (N * string)) : list (N * string) :=
  match initial_lines with
  | [] => []
  | _ :: tl =>
      if (max_initial_lines <? length initial_lines)%nat then erase_while_over tl
      else initial_lines
  end.

(** The [for] loop of [add_initial_line] with the [push_back] that follows
    it: the entry goes before the first entry with a strictly greater key,
    or to the end. *)
Fixpoint insert_before_greater (e : N * string) (initial_lines : list (N * string))
  : list (N * string) :=
  match initial_lines with
  | [] => [e]
  | x :: tl =>
      if (e.1 <? x.1)%N then e :: x :: tl
      else x :: insert_before_greater e tl
  end.

Section LogMonitor.

(** [spdlog_utility::get_sort_key], of spdlog_utility.hpp: the key of a
    line, if it has one. *)
Variable get_sort_key : string -> option N.

Definition add_initial_line (line : string) (initial_lines : list (N * string))
  : list (N * string) * bool :=
  match get_sort_key line with
  | Some sort_key =>
      match head initial_lines, last initial_lines with
      | Some front, Some back =>
          if (sort_key <? front.1)%N then (initial_lines, false)
          else if (back.1 <? sort_key)%N then
            (initial_lines ++ [(sort_key, line)], true)
          else (insert_before_greater (sort_key, line) initial_lines, true)
      | _, _ => (initial_lines ++ [(sort_key, line)], true)
      end
  | None => (initial_lines, false)
  end.

(** The body of the loop of [add_initial_lines]. *)
Definition scan_line (line : string) (initial_lines : list (N * string))
  : list (N * string) :=
  let '(initial_lines1, added) := add_initial_line line initial_lines in
  if added then erase_while_over initial_lines1 else initial_lines1.

Definition add_initial_lines (fs : gmap string string) (file_path : string)
    (m : log_monitor) : log_monitor :=
  let stream := ifstream_open fs file_path in
  let '(_, read_position, initial_lines) :=
    getline_loop scan_line (loop_fuel stream) stream EmptyString 0%Z (initial_lines_ m) in
  mk_log_monitor (callback_ m) initial_lines
    (<[file_path := read_position]> (read_position_ m)) (files_ m).

(** The constructor: the historical scan of the rotated and of the live
    file of every target. *)
Definition construct_target (fs : gmap string string) (m : log_monitor)
    (target : string) : log_monitor :=
  let m1 := add_initial_lines fs (target +:+ ".1.txt") m in
  let m2 := add_initial_lines fs (target +:+ ".txt") m1 in
  mk_log_monitor (callback_ m2) (initial_lines_ m2) (read_position_ m2)
    (files_ m2 ++ [target +:+ ".txt"]).

Definition construct (fs : gmap string string) (targets : list string)
    (callback : bool) : log_monitor :=
  foldl (construct_target fs) (mk_log_monitor callback [] ∅ []) targets.

Definition get_initial_lines (m : log_monitor) : list (N * string) :=
  initial_lines_ m.

(** The candidates the extractor accepts, in insertion order. *)
Definition candidates (lines : list string) : list (N * string) :=
  omap (λ l, (λ k, (k, l)) <$> get_sort_key l) lines.

End LogMonitor.

(** The stream of [call_callback] once it is open: the seek. The offset is
    compared as the signed integer a [std::streampos] converts to, so that
    [pos_type(-1)] is below every size. *)
Definition seek_read_position (fs : gmap string string) (file_path : string)
    (m : log_monitor) (stream : ifstream) : ifstream :=
  match read_position_ m !! file_path with
  | Some pos =>
      match file_size fs file_path with
      | Some size => if (pos <? size)%Z then seekg stream pos else stream
      | None => stream
      end
  | None => stream
  end.

(** The body of the loop of [call_callback]: the invocation of the
    callback, recorded at the end of the trace. *)
Definition deliver (callback : bool) (line : string) (trace : list string)
  : list string :=
  if callback then trace ++ [line] else trace.

(** [call_callback]: the new state and the lines the callback was invoked
    with, in order. *)
Definition call_callback (fs : gmap string string) (file_path : string)
    (m : log_monitor) : log_monitor * list string :=
  let stream := ifstream_open fs file_path in
  if failbit stream then (m, [])
  else
    let stream1 := seek_read_position fs file_path m stream in
    let '(_, read_position, trace) :=
      getline_loop (deliver (callback_ m)) (loop_fuel stream1) stream1 EmptyString 0%Z [] in
    (mk_log_monitor (callback_ m) (initial_lines_ m)
       (<[file_path := read_position]> (read_position_ m)) (files_ m),
     trace).

(** The event handler of the timer, for one file of [files_]. *)
Definition timer_event_file (fs : gmap string string)
    (acc : log_monitor * list string) (file : string) : log_monitor * list string :=
  let '(m, trace) := acc in
  match file_size fs file with
  | Some size =>
      match read_position_ m !! file with
      | Some pos =>
          if negb (pos =? size)%Z then
            let '(m1, t) := call_callback fs file m in (m1, trace ++ t)
          else (m, trace)
      | None => (m, trace)
      end
  | None => (m, trace)
  end.

(** One tick: the event handler of the timer, on the file system as it is
    at the time of the tick. When the timer cannot be created there is no
    tick at all. *)
Definition timer_event (fs : gmap string string) (m : log_monitor)
  : log_monitor * list string :=
  foldl (timer_event_file fs) (m, []) (files_ m).

(** A run of ticks, each on its own file system, with the lines delivered
    over the whole run. *)
Definition timer_events (fss : list (gmap string string)) (m : log_monitor)
  : log_monitor * list string :=
  foldl (fun acc fs => let '(m1, t) := timer_event fs acc.1 in (m1, acc.2 ++ t))
        (m, []) fss.

(** ** Vocabulary of the statements *)

(** The position the loop leaves in [read_position] when it starts on a
    good stream with [rest] unread. *)
Definition end_position (s : ifstream) (rest : string) (read_position : streampos)
  : streampos :=
  match rest with
  | EmptyString => read_position
  | _ => if Str.ends_unterminated rest then (-1)%Z
         else Z.of_nat (gpos s + String.length rest)
  end.

(** What the loop does on a stream, whatever its body: the lines it
    passes to the body and the value it leaves in [read_position]. *)
Definition unread (s : ifstream) : string := Str.drop (gpos s) (content s).

Definition loop_lines (s : ifstream) : list string :=
  if failbit s then [] else Str.lines (unread s).

Definition loop_position (s : ifstream) : streampos :=
  if failbit s then 0%Z else end_position s (unread s) 0%Z.

(** *** The historical buffer *)

Definition key_le (x y : N * string) : Prop := (x.1 ≤ y.1)%N.

(** Sorted non-decreasing by key. *)
Definition sorted_by_key (b : list (N * string)) : Prop := StronglySorted key_le b.

(** [x] stands before [y] in [l]. *)
Definition before {A} (l : list A) (x y : A) : Prop :=
  ∃ i j, i < j ∧ l !! i = Some x ∧ l !! j = Some y.

(** *** The offset table *)

Definition set_read_position (m : log_monitor) (path : string) (pos : streampos)
  : log_monitor :=
  mk_log_monitor (callback_ m) (initial_lines_ m)
    (<[path := pos]> (read_position_ m)) (files_ m).

(** The lines [std::getline] yields in [call_callback]: the loop of
    [call_callback] with a body that records every line. *)
Definition lines_read (fs : gmap string string) (file_path : string)
    (m : log_monitor) : list string :=
  let stream1 := seek_read_position fs file_path m (ifstream_open fs file_path) in
  (getline_loop (deliver true) (loop_fuel stream1) stream1 EmptyString 0%Z []).2.

(** The trace [t] holds the lines of [c], one after the other. *)
Definition delivers (t : list string) (c : string) : Prop :=
  ∃ t1 t2, t = t1 ++ Str.lines c ++ t2.

(** The offset of a file that ends in a fragment, one tick later. *)
Definition flip_offset (pos : Z) : Z := if (pos =? -1)%Z then 0%Z else (-1)%Z.

(** *** The construction and the ticks *)

(** The lines a scan reads from a path: none when the file cannot be
    opened. *)
Definition file_lines (fs : gmap string string) (path : string) : list string :=
  match fs !! path with
  | Some c => Str.lines c
  | None => []
  end.

(** The offset a read that reaches the end of [c] leaves. *)
Definition offset_at_end (c : string) : Z :=
  if Str.ends_unterminated c then (-1)%Z else Z.of_nat (String.length c).

(** The offset an incremental read of [c] leaves when [pos] was recorded. *)
Definition offset_after_read (c : string) (pos : Z) : Z :=
  if (pos <? 0)%Z then 0%Z else offset_at_end c.

(** A text made of terminated lines. *)
Definition join_lines (ls : list string) : string :=
  foldr (λ l acc, l +:+ Str.nl +:+ acc) EmptyString ls.

(** Every polled file has an entry in the offset table. *)
Definition polled_have_offsets (m : log_monitor) : Prop :=
  ∀ f, f ∈ files_ m → is_Some (read_position_ m !! f).

(** A tick has nothing to do for [file]. *)
Definition up_to_date (fs : gmap string string) (m : log_monitor) (file : string)
  : Prop :=
  match file_size fs file, read_position_ m !! file with
  | Some size, Some pos => pos = size
  | _, _ => True
  end.

(** ** Sample data *)

Module Sample.

(** An extractor for the examples: the decimal number a line starts
    with, if it starts with a digit. *)
Fixpoint digits (s : string) (acc : option N) : option N :=
  match s with
  | String c s' =>
      let n := N_of_ascii c in
      if ((48 <=? n) && (n <=? 57))%N then
        digits s' (Some (10 * default 0%N acc + (n - 48))%N)
      else acc
  | EmptyString => acc
  end.

Definition sort_key (line : string) : option N := digits line None.

(** A buffer at capacity, with the keys 10 to 259. *)
Definition full_buffer : list (N * string) :=
  (λ i, (N.of_nat (10 + i), "line")) <$> seq 0 250.

Definition monitor (pos : Z) : log_monitor :=
  mk_log_monitor true [] {["app.txt" := pos]} ["app.txt"].

Definition file (c : string) : gmap string string := {["app.txt" := c]}.

End Sample.

(** Closes a decidable goal on concrete data by evaluation. *)
Ltac by_evaluation := refine (bool_decide_unpack _ _); vm_compute; exact I.

(** * Properties *)

(** ** Facts about strings *)

Lemma drop_nil n : Str.drop n EmptyString = EmptyString.
Proof. by destruct n. Qed.

Lemma drop_drop n p s : Str.drop n (Str.drop p s) = Str.drop (p + n) s.
Proof.
  revert s; induction p as [|p IH]; intros s; [done|].
  destruct s as [|c s]; simpl; [apply drop_nil | apply IH].
Qed.

Lemma length_drop n s : String.length (Str.drop n s) = String.length s - n.
Proof.
  revert s; induction n as [|n IH]; intros [|c s]; simpl; try lia. apply IH.
Qed.

Lemma drop_app_length a b : Str.drop (String.length a) (a +:+ b) = b.
Proof. induction a as [|c a IH]; simpl; [by destruct b | done]. Qed.

Lemma length_app a b : String.length (a +:+ b) = String.length a + String.length b.
Proof. induction a as [|c a IH]; simpl; [done | by rewrite IH]. Qed.

Lemma length_0_inv s : String.length s = 0 → s = EmptyString.
Proof. by destruct s. Qed.

(** ** Facts about [extract_line] *)

Lemma extract_line_terminated rest l n :
  extract_line rest = (l, n, false) →
  0 < n ∧ String.length rest = n + String.length (Str.drop n rest) ∧
  Str.lines rest = l :: Str.lines (Str.drop n rest) ∧
  Str.ends_unterminated rest = Str.ends_unterminated (Str.drop n rest).
Proof.
  revert l n; induction rest as [|c r IH]; intros l n; simpl; [done|].
  destruct (Ascii.eqb c Str.newline) eqn:Hc.
  - intros [= <- <-]; simpl. repeat split; [lia | by destruct r].
  - destruct (extract_line r) as [[l' n'] e] eqn:Hr.
    intros [= <- <- ->]. destruct (IH _ _ eq_refl) as (Hn & Hlen & Hl & He).
    simpl. rewrite Hl. repeat split; [lia | lia |].
    rewrite <- He. destruct r; [done | done].
Qed.

Lemma extract_line_eof rest l n :
  extract_line rest = (l, n, true) →
  n = String.length rest ∧
  Str.lines rest = (if n =? 0 then [] else [l]) ∧
  Str.ends_unterminated rest = negb (n =? 0).
Proof.
  revert l n; induction rest as [|c r IH]; intros l n; simpl.
  - by intros [= <- <-].
  - destruct (Ascii.eqb c Str.newline) eqn:Hc; [done|].
    destruct (extract_line r) as [[l' n'] e] eqn:Hr.
    intros [= <- <- ->]. destruct (IH _ _ eq_refl) as (Hn & Hl & He).
    simpl. rewrite Hl. split; [lia|].
    destruct r as [|c' r']; simpl in *.
    + injection Hr as <- <-. done.
    + subst n'. simpl. split; [done|]. by rewrite He.
Qed.

(** ** The loop over the lines of a stream *)

Lemma getline_loop_failed {St} (body : string → St → St) fuel s line rp st :
  failbit s = true →
  getline_loop body (S fuel) s line rp st = (setstate_failbit s, rp, st).
Proof.
  intros Hf. simpl. unfold getline, good. rewrite Hf, andb_false_r. done.
Qed.

Lemma getline_loop_good {St} (body : string → St → St) fuel :
  ∀ s line rp st,
    good s = true →
    String.length (Str.drop (gpos s) (content s)) < fuel →
    ∃ s', getline_loop body fuel s line rp st =
            (s', end_position s (Str.drop (gpos s) (content s)) rp,
             foldl (λ st l, body l st) st (Str.lines (Str.drop (gpos s) (content s))))
          ∧ failbit s' = true.
Proof.
  induction fuel as [|fuel IH]; intros s line rp st Hgood Hfuel; [lia|].
  simpl. unfold getline. rewrite Hgood.
  set (rest := Str.drop (gpos s) (content s)) in *.
  destruct (extract_line rest) as [[l n] e] eqn:Hx.
  destruct e.
  - destruct (extract_line_eof _ _ _ Hx) as (Hn & Hl & He).
    destruct (n =? 0) eqn:Hn0; simpl.
    + apply Nat.eqb_eq in Hn0. rewrite Hl.
      assert (rest = EmptyString) as -> by (apply length_0_inv; lia).
      eexists; split; [done|done].
    + apply Nat.eqb_neq in Hn0.
      destruct fuel as [|fuel]; [lia|].
      rewrite getline_loop_failed by done.
      rewrite Hl. unfold end_position. rewrite He.
      destruct rest; [simpl in *; lia|].
      eexists; split; [done|done].
  - destruct (extract_line_terminated _ _ _ Hx) as (Hn & Hlen & Hl & He).
    destruct (n =? 0) eqn:Hn0; [apply Nat.eqb_eq in Hn0; lia|]. simpl.
    set (s1 := mk_ifstream (content s) (gpos s + n) false false).
    destruct (IH s1 l (Z.of_nat (gpos s + n)) (body l st)) as (s' & Heq & Hf);
      [done| |].
    { simpl. rewrite <- drop_drop. fold rest. lia. }
    rewrite Heq. simpl. rewrite <- drop_drop. fold rest.
    exists s'. split; [|done]. rewrite Hl. simpl.
    f_equal. f_equal. unfold end_position. simpl.
    destruct rest as [|c r] eqn:Hrest; [simpl in *; lia|].
    rewrite <- Hrest in *. rewrite He.
    destruct (Str.drop n rest) eqn:Hd.
    + simpl in *. f_equal. lia.
    + rewrite Hlen, Nat.add_assoc. done.
Qed.

Lemma getline_loop_more_fuel {St} (body : string → St → St) s line rp st fuel :
  eofbit s = false → String.length (unread s) < fuel →
  ∃ s', getline_loop body fuel s line rp st =
          (s', (if failbit s then rp else end_position s (unread s) rp),
           foldl (λ st l, body l st) st (loop_lines s))
        ∧ failbit s' = true.
Proof.
  intros He Hfuel. unfold loop_lines. destruct (failbit s) eqn:Hf.
  - destruct fuel as [|fuel]; [lia|]. rewrite getline_loop_failed by done.
    eexists; split; done.
  - apply getline_loop_good; [|done]. unfold good. by rewrite He, Hf.
Qed.

Lemma getline_loop_spec {St} (body : string → St → St) s line st :
  eofbit s = false →
  ∃ s', getline_loop body (loop_fuel s) s line 0%Z st =
          (s', loop_position s, foldl (λ st l, body l st) st (loop_lines s))
        ∧ failbit s' = true.
Proof.
  intros He. apply getline_loop_more_fuel; [done|].
  unfold loop_fuel, unread. rewrite length_drop. lia.
Qed.

Lemma eofbit_open fs path : eofbit (ifstream_open fs path) = false.
Proof. unfold ifstream_open. by destruct (fs !! path). Qed.

Lemma eofbit_seekg s pos : eofbit (seekg s pos) = false.
Proof. unfold seekg. by repeat case_match. Qed.

Lemma eofbit_seek_read_position fs path m s :
  eofbit s = false → eofbit (seek_read_position fs path m s) = false.
Proof.
  intros He. unfold seek_read_position.
  repeat case_match; try done; apply eofbit_seekg.
Qed.

Lemma foldl_deliver cb (ls tr : list string) :
  foldl (λ st l, deliver cb l st) tr ls = if cb then tr ++ ls else tr.
Proof.
  revert tr; induction ls as [|l ls IH]; intros tr; simpl.
  - destruct cb; [by rewrite app_nil_r | done].
  - rewrite IH. destruct cb; simpl; [by rewrite <- app_assoc | done].
Qed.

Section Spec.
Variable get_sort_key : string → option N.

Lemma add_initial_lines_spec fs path m :
  add_initial_lines get_sort_key fs path m =
  mk_log_monitor (callback_ m)
    (foldl (λ b l, scan_line get_sort_key l b) (initial_lines_ m)
           (loop_lines (ifstream_open fs path)))
    (<[path := loop_position (ifstream_open fs path)]> (read_position_ m))
    (files_ m).
Proof.
  unfold add_initial_lines.
  destruct (getline_loop_spec (scan_line get_sort_key) (ifstream_open fs path) EmptyString
              (initial_lines_ m) (eofbit_open fs path)) as (s' & -> & _).
  done.
Qed.
End Spec.

Lemma call_callback_spec fs path m c :
  fs !! path = Some c →
  let s := seek_read_position fs path m (ifstream_open fs path) in
  call_callback fs path m =
  (mk_log_monitor (callback_ m) (initial_lines_ m)
     (<[path := loop_position s]> (read_position_ m)) (files_ m),
   if callback_ m then loop_lines s else []).
Proof.
  intros Hc s. unfold call_callback.
  assert (failbit (ifstream_open fs path) = false) as ->.
  { unfold ifstream_open. by rewrite Hc. }
  fold s.
  destruct (getline_loop_spec (deliver (callback_ m)) s EmptyString []) as (s' & -> & _).
  { apply eofbit_seek_read_position, eofbit_open. }
  by rewrite foldl_deliver.
Qed.

Lemma call_callback_closed fs path m :
  fs !! path = None → call_callback fs path m = (m, []).
Proof.
  intros Hc. unfold call_callback, ifstream_open. by rewrite Hc.
Qed.

(** ** The historical buffer *)

Lemma Forall_insert_before_greater (P : N * string → Prop) e b :
  Forall P (insert_before_greater e b) ↔ P e ∧ Forall P b.
Proof.
  induction b as [|x b IH]; simpl.
  - rewrite Forall_singleton. intuition.
  - destruct (e.1 <? x.1)%N; rewrite !Forall_cons; [tauto|].
    rewrite IH. tauto.
Qed.

Lemma insert_before_greater_sorted e b :
  sorted_by_key b → sorted_by_key (insert_before_greater e b).
Proof.
  unfold sorted_by_key.
  induction b as [|x b IH]; simpl; intros Hs.
  - repeat constructor.
  - apply StronglySorted_inv in Hs as [Hb Hx].
    destruct (e.1 <? x.1)%N eqn:Hlt.
    + apply N.ltb_lt in Hlt. constructor; [by constructor|].
      constructor; [unfold key_le; lia|].
      eapply Forall_impl; [exact Hx|]. unfold key_le; intros; lia.
    + apply N.ltb_ge in Hlt. constructor; [by apply IH|].
      apply Forall_insert_before_greater. done.
Qed.

Lemma insert_before_greater_push_back e b :
  Forall (λ x, (x.1 ≤ e.1)%N) b → insert_before_greater e b = b ++ [e].
Proof.
  induction 1 as [|x b Hx _ IH]; simpl; [done|].
  destruct (e.1 <? x.1)%N eqn:Hlt; [apply N.ltb_lt in Hlt; lia|].
  by rewrite IH.
Qed.

(** Where the entry goes: after every entry with a key that is not greater
    (equal keys included), right before the first strictly greater one. *)
Lemma insert_before_greater_position e b :
  ∃ pre post,
    b = pre ++ post ∧ insert_before_greater e b = pre ++ e :: post ∧
    Forall (λ x, (x.1 ≤ e.1)%N) pre ∧
    ∀ x, head post = Some x → (e.1 < x.1)%N.
Proof.
  induction b as [|x b (pre & post & Hb & Hins & Hpre & Hpost)]; simpl.
  - exists [], []. by repeat split.
  - destruct (e.1 <? x.1)%N eqn:Hlt.
    + apply N.ltb_lt in Hlt. exists [], (x :: b). repeat split; [done|].
      by intros ? [= <-].
    + apply N.ltb_ge in Hlt. exists (x :: pre), post.
      rewrite Hins. repeat split; [by rewrite Hb at 1 | by constructor | done].
Qed.

Lemma sorted_by_key_last b back :
  sorted_by_key b → last b = Some back → Forall (λ x, (x.1 ≤ back.1)%N) b.
Proof.
  unfold sorted_by_key. induction 1 as [|x b Hs IH Hx]; [done|].
  destruct b as [|y b]; simpl.
  - intros [= ->]. by constructor.
  - intros Hl. constructor; [|by apply IH].
    assert (back ∈ y :: b) as Hin by (by apply last_Some_elem_of).
    rewrite Forall_forall in Hx. by apply Hx.
Qed.

Lemma erase_while_over_suffix b : erase_while_over b `suffix_of` b.
Proof.
  induction b as [|x b IH]; [done|].
  cbn [erase_while_over]. case_match; [|done].
  by apply suffix_cons_r.
Qed.

Lemma erase_while_over_length b : length (erase_while_over b) ≤ max_initial_lines.
Proof.
  induction b as [|x b IH]; [simpl; lia|].
  cbn [erase_while_over]. case_match eqn:Hlt; [done|].
  by apply Nat.ltb_ge in Hlt.
Qed.

Lemma erase_while_over_fits b :
  length b ≤ max_initial_lines → erase_while_over b = b.
Proof.
  destruct b as [|x b]; [done|]. intros Hlen.
  cbn [erase_while_over]. case_match eqn:Hlt; [|done].
  apply Nat.ltb_lt in Hlt. lia.
Qed.

Lemma sorted_by_key_suffix b1 b2 :
  b1 `suffix_of` b2 → sorted_by_key b2 → sorted_by_key b1.
Proof.
  intros [pre ->]. unfold sorted_by_key.
  induction pre as [|x pre IH]; simpl; [done|].
  intros Hs. apply StronglySorted_inv in Hs as [Hs _]. by apply IH.
Qed.

Section Buffer.
Variable get_sort_key : string → option N.

(** On a sorted buffer the three insertions of [add_initial_line] are one:
    the entry goes before the first strictly greater key. *)
Lemma add_initial_line_cases line b :
  sorted_by_key b →
  add_initial_line get_sort_key line b = (b, false) ∨
  ∃ k, get_sort_key line = Some k ∧
       add_initial_line get_sort_key line b =
         (insert_before_greater (k, line) b, true).
Proof.
  intros Hs. unfold add_initial_line.
  destruct (get_sort_key line) as [k|]; [|by left].
  destruct (head b) as [front|] eqn:Hh.
  - destruct (last b) as [back|] eqn:Hl.
    + destruct (k <? front.1)%N; [by left|].
      right. exists k. split; [done|].
      destruct (back.1 <? k)%N eqn:Hlt; [|done].
      apply N.ltb_lt in Hlt.
      rewrite insert_before_greater_push_back; [done|].
      eapply Forall_impl; [by apply sorted_by_key_last|].
      simpl. intros; lia.
    + apply last_None in Hl. by subst.
  - right. exists k. split; [done|]. destruct b; [done|done].
Qed.

Lemma scan_line_cases line b :
  sorted_by_key b →
  scan_line get_sort_key line b = b ∨
  ∃ k, get_sort_key line = Some k ∧
       scan_line get_sort_key line b =
         erase_while_over (insert_before_greater (k, line) b).
Proof.
  intros Hs. unfold scan_line.
  destruct (add_initial_line_cases line b Hs) as [-> | (k & Hk & ->)];
    [by left | right; eauto].
Qed.

Lemma scan_line_invariant line b :
  sorted_by_key b ∧ length b ≤ max_initial_lines →
  sorted_by_key (scan_line get_sort_key line b) ∧
  length (scan_line get_sort_key line b) ≤ max_initial_lines.
Proof.
  intros [Hs Hlen].
  destruct (scan_line_cases line b Hs) as [-> | (k & _ & ->)]; [done|].
  split; [|apply erase_while_over_length].
  eapply sorted_by_key_suffix; [apply erase_while_over_suffix|].
  by apply insert_before_greater_sorted.
Qed.

Lemma scan_lines_invariant lines b :
  sorted_by_key b ∧ length b ≤ max_initial_lines →
  sorted_by_key (foldl (λ b l, scan_line get_sort_key l b) b lines) ∧
  length (foldl (λ b l, scan_line get_sort_key l b) b lines) ≤ max_initial_lines.
Proof.
  revert b; induction lines as [|l lines IH]; intros b Hb; [done|].
  simpl. by apply IH, scan_line_invariant.
Qed.

Lemma construct_target_invariant fs m target :
  sorted_by_key (initial_lines_ m) ∧ length (initial_lines_ m) ≤ max_initial_lines →
  sorted_by_key (initial_lines_ (construct_target get_sort_key fs m target)) ∧
  length (initial_lines_ (construct_target get_sort_key fs m target)) ≤ max_initial_lines.
Proof.
  intros Hm. unfold construct_target. simpl.
  rewrite !add_initial_lines_spec. simpl.
  by do 2 apply scan_lines_invariant.
Qed.

(** C1. Whatever lines are passed to the scan (the insertion of
    [add_initial_line] followed by the eviction loop), starting from the
    empty buffer, the buffer is sorted non-decreasing by key and holds at
    most 250 entries after every insertion; so does the buffer the
    constructor leaves. *)
Theorem initial_lines_sorted_bounded :
  (∀ (lines : list string) (n : nat),
     let buffer := foldl (λ b l, scan_line get_sort_key l b) [] (take n lines) in
     sorted_by_key buffer ∧ length buffer ≤ 250) ∧
  (∀ fs targets callback,
     let buffer := get_initial_lines (construct get_sort_key fs targets callback) in
     sorted_by_key buffer ∧ length buffer ≤ 250).
Proof.
  split.
  - intros lines n. apply scan_lines_invariant.
    split; [constructor | simpl; lia].
  - intros fs targets callback. unfold get_initial_lines, construct.
    assert (∀ m, sorted_by_key (initial_lines_ m) ∧
                 length (initial_lines_ m) ≤ max_initial_lines →
                 sorted_by_key (initial_lines_ (foldl (construct_target get_sort_key fs) m targets)) ∧
                 length (initial_lines_ (foldl (construct_target get_sort_key fs) m targets)) ≤ max_initial_lines) as H.
    { induction targets as [|t ts IH]; intros m Hm; [done|].
      simpl. by apply IH, construct_target_invariant. }
    apply H. split; [constructor | simpl; lia].
Qed.
End Buffer.

(** ** Order of the entries with equal keys *)

Lemma before_split {A} (l : list A) x y :
  before l x y ↔ ∃ l1 l2 l3, l = l1 ++ x :: l2 ++ y :: l3.
Proof.
  split.
  - intros (i & j & Hij & Hi & Hj).
    exists (take i l), (take (j - S i) (drop (S i) l)), (drop (S (j - S i)) (drop (S i) l)).
    rewrite take_drop_middle.
    + by rewrite take_drop_middle.
    + rewrite lookup_drop. by replace (S i + (j - S i)) with j by lia.
  - intros (l1 & l2 & l3 & ->).
    exists (length l1), (length l1 + S (length l2)). split; [lia|]. split.
    + by rewrite list_lookup_middle.
    + rewrite lookup_app_r by lia.
      replace (length l1 + S (length l2) - length l1) with (S (length l2)) by lia.
      simpl. by rewrite list_lookup_middle.
Qed.

Lemma before_sublist {A} (l k : list A) x y :
  l `sublist_of` k → before l x y → before k x y.
Proof.
  rewrite !before_split. intros Hsub (l1 & l2 & l3 & ->).
  apply sublist_app_l in Hsub as (k1 & k' & -> & _ & Hsub).
  apply sublist_cons_l in Hsub as (k2 & k'' & -> & Hsub).
  apply sublist_app_l in Hsub as (k3 & k''' & -> & _ & Hsub).
  apply sublist_cons_l in Hsub as (k4 & k5 & -> & _).
  exists (k1 ++ k2), (k3 ++ k4), k5. by rewrite <- !app_assoc.
Qed.

Lemma before_filter {A} (P : A → Prop) `{!∀ x, Decision (P x)} (l : list A) x y :
  P x → P y → before l x y → before (filter P l) x y.
Proof.
  rewrite !before_split. intros Hx Hy (l1 & l2 & l3 & ->).
  exists (filter P l1), (filter P l2), (filter P l3).
  rewrite filter_app, filter_cons_True by done.
  by rewrite filter_app, filter_cons_True by done.
Qed.

Lemma before_fmap {A B} (f : A → B) (l : list A) x y :
  before l x y → before (f <$> l) (f x) (f y).
Proof.
  intros (i & j & Hij & Hi & Hj). exists i, j.
  rewrite !list_lookup_fmap, Hi, Hj. done.
Qed.

Lemma before_NoDup {A} (l : list A) x y :
  NoDup l → before l x y → before l y x → False.
Proof.
  intros Hnd (i & j & Hij & Hi & Hj) (i' & j' & Hij' & Hi' & Hj').
  assert (i = j') by (eapply NoDup_lookup; done).
  assert (j = i') by (eapply NoDup_lookup; done).
  lia.
Qed.

Lemma filter_none {A} (P : A → Prop) `{!∀ x, Decision (P x)} (l : list A) :
  Forall (λ x, ¬ P x) l → filter P l = [].
Proof.
  induction 1 as [|x l Hx _ IH]; [done|]. by rewrite filter_cons_False.
Qed.

Lemma filter_key_insert_before_greater (k : N) (e : N * string) b :
  sorted_by_key b →
  filter (λ x, x.1 = k) (insert_before_greater e b) =
  filter (λ x, x.1 = k) b ++ filter (λ x, x.1 = k) [e].
Proof.
  unfold sorted_by_key. induction b as [|x b IH]; intros Hs; simpl; [done|].
  apply StronglySorted_inv in Hs as [Hs Hx].
  destruct (e.1 <? x.1)%N eqn:Hlt.
  - apply N.ltb_lt in Hlt.
    destruct (decide (e.1 = k)) as [He|He].
    + rewrite (filter_cons_True _ e) by done.
      rewrite (filter_cons_True _ e []) by done.
      assert (filter (λ y : N * string, y.1 = k) (x :: b) = []) as ->; [|done].
      apply filter_none. constructor; [simpl; lia|].
      eapply Forall_impl; [exact Hx|]. unfold key_le. simpl. intros; lia.
    + rewrite (filter_cons_False _ e) by done.
      rewrite (filter_cons_False _ e []) by done.
      by rewrite filter_nil, app_nil_r.
  - rewrite !(filter_cons _ x). rewrite IH by done.
    by destruct (decide (x.1 = k)).
Qed.

Section Candidates.
Variable get_sort_key : string → option N.

Lemma candidates_lines lines :
  (candidates get_sort_key lines).*2 `sublist_of` lines.
Proof.
  induction lines as [|l lines IH]; simpl; [done|].
  unfold candidates in *. simpl.
  destruct (get_sort_key l); simpl; [by apply sublist_skip|].
  by constructor.
Qed.
End Candidates.

Lemma filter_sublist_mono {A} (P : A → Prop) `{!∀ x, Decision (P x)} (l k : list A) :
  l `sublist_of` k → filter P l `sublist_of` filter P k.
Proof.
  induction 1 as [|x l k _ IH|x l k _ IH]; [done| |].
  - rewrite !filter_cons. case_decide; [by constructor | done].
  - rewrite filter_cons. case_decide; [by constructor | done].
Qed.

Lemma erase_while_over_sublist b : erase_while_over b `sublist_of` b.
Proof.
  destruct (erase_while_over_suffix b) as [pre Heq].
  rewrite Heq at 2. by apply sublist_inserts_l.
Qed.

Section Stability.
Variable get_sort_key : string → option N.

Lemma scan_line_key_sublist (k : N) line b :
  sorted_by_key b →
  filter (λ x, x.1 = k) (scan_line get_sort_key line b) `sublist_of`
  filter (λ x, x.1 = k) b ++ filter (λ x, x.1 = k) (candidates get_sort_key [line]).
Proof.
  intros Hs.
  destruct (scan_line_cases get_sort_key line b Hs) as [-> | (k' & Hk & ->)].
  - by apply sublist_inserts_r.
  - unfold candidates. simpl. rewrite Hk. simpl.
    rewrite <- filter_key_insert_before_greater by done.
    apply filter_sublist_mono, erase_while_over_sublist.
Qed.

Lemma candidates_cons l lines :
  candidates get_sort_key (l :: lines) =
  candidates get_sort_key [l] ++ candidates get_sort_key lines.
Proof. unfold candidates. simpl. by destruct (get_sort_key l). Qed.

Lemma scan_lines_key_sublist (k : N) lines b :
  sorted_by_key b ∧ length b ≤ max_initial_lines →
  filter (λ x, x.1 = k) (foldl (λ b l, scan_line get_sort_key l b) b lines)
  `sublist_of`
  filter (λ x, x.1 = k) b ++ filter (λ x, x.1 = k) (candidates get_sort_key lines).
Proof.
  revert b; induction lines as [|l lines IH]; intros b Hb.
  - simpl. by rewrite app_nil_r.
  - cbn [foldl]. etrans; [apply IH, scan_line_invariant, Hb|].
    rewrite candidates_cons, filter_app, app_assoc.
    apply sublist_app; [|done].
    apply scan_line_key_sublist, Hb.
Qed.

(** C6. The entries of the buffer with a given key are, in the order of
    the buffer, a subsequence of the scanned lines with that key in the
    order of the scan. Hence, when every occurrence of a line [a] in the
    scan comes before every occurrence of a line [b] (as when each was
    scanned once, [a] first) and both are in the buffer with the same key,
    [a] stands before [b] in the buffer. Nothing is asked of the other
    lines of the scan, which may repeat. *)
Theorem equal_keys_keep_insertion_order (lines : list string) (k : N) :
  let buffer := foldl (λ b l, scan_line get_sort_key l b) [] lines in
  filter (λ e, e.1 = k) buffer `sublist_of`
    filter (λ e, e.1 = k) (candidates get_sort_key lines) ∧
  ∀ (a b : string) (p q : nat),
    (∀ i j, lines !! i = Some a → lines !! j = Some b → i < j) →
    buffer !! p = Some (k, a) → buffer !! q = Some (k, b) →
    p < q.
Proof.
  intros buffer.
  assert (filter (λ e, e.1 = k) buffer `sublist_of`
            filter (λ e, e.1 = k) (candidates get_sort_key lines)) as Hsub.
  { apply (scan_lines_key_sublist k lines []).
    split; [constructor | simpl; lia]. }
  split; [exact Hsub|].
  intros a b p q Hord Hp Hq.
  assert (∀ x y, before buffer (k, x) (k, y) → before lines x y) as Hbefore.
  { intros x y Hxy.
    eapply before_sublist; [apply (candidates_lines get_sort_key)|].
    apply (before_fmap snd _ (k, x) (k, y)).
    eapply before_sublist; [apply (sublist_filter (λ e, e.1 = k))|].
    eapply before_sublist; [exact Hsub|].
    by apply before_filter. }
  destruct (Nat.lt_trichotomy p q) as [Hlt | [-> | Hgt]]; [done| |].
  - exfalso. rewrite Hp in Hq. injection Hq as <-.
    assert ((k, a) ∈ filter (λ e, e.1 = k) buffer) as Hin.
    { apply list_elem_of_filter. split; [done|].
      apply list_elem_of_lookup. eauto. }
    apply (λ H, elem_of_sublist _ _ _ H Hsub) in Hin.
    apply list_elem_of_filter in Hin as [_ Hin].
    apply (list_elem_of_fmap_2 snd) in Hin.
    apply (λ H, elem_of_sublist _ _ _ H (candidates_lines get_sort_key lines)) in Hin.
    apply list_elem_of_lookup in Hin as [i Hi].
    specialize (Hord i i Hi Hi). lia.
  - exfalso. destruct (Hbefore b a) as (i & j & Hij & Hi & Hj); [by exists q, p|].
    specialize (Hord j i Hj Hi). lia.
Qed.

(** C7. On a buffer at its capacity of 250 entries, a line whose key is
    strictly below every key of the buffer is discarded: [add_initial_line]
    reports that nothing was added and the buffer is unchanged. *)
Theorem older_line_discarded_at_capacity (line : string) (k : N)
    (buffer : list (N * string)) :
  length buffer = 250 →
  Forall (λ e, (k < e.1)%N) buffer →
  get_sort_key line = Some k →
  add_initial_line get_sort_key line buffer = (buffer, false) ∧
  scan_line get_sort_key line buffer = buffer.
Proof.
  intros Hlen Hmin Hk.
  assert (add_initial_line get_sort_key line buffer = (buffer, false)) as H.
  { unfold add_initial_line. rewrite Hk.
    destruct buffer as [|front tl]; [done|]. cbn [head].
    destruct (last (front :: tl)) as [back|] eqn:Hl.
    - apply Forall_cons in Hmin as [Hfront _].
      apply N.ltb_lt in Hfront. by rewrite Hfront.
    - by apply last_None in Hl. }
  split; [done|]. unfold scan_line. by rewrite H.
Qed.
End Stability.

(** ** Lines of a text *)

Lemma app_cons_string c s t : String c s +:+ t = String c (s +:+ t).
Proof. reflexivity. Qed.

Lemma app_nil_l_string t : EmptyString +:+ t = t.
Proof. reflexivity. Qed.

Lemma app_nil_r_string s : s +:+ EmptyString = s.
Proof. induction s as [|c s IH]; [done | by rewrite app_cons_string, IH]. Qed.

Lemma app_assoc_string a b c : (a +:+ b) +:+ c = a +:+ b +:+ c.
Proof. induction a as [|x a IH]; [done | by rewrite !app_cons_string, IH]. Qed.

Lemma lines_nil_inv s : Str.lines s = [] → s = EmptyString.
Proof.
  destruct s as [|c s]; [done|]. simpl.
  destruct (Ascii.eqb c Str.newline); [done|]. by destruct (Str.lines s).
Qed.

Lemma lines_fragment s :
  Str.no_newline s = true → s ≠ EmptyString →
  Str.lines s = [s] ∧ Str.ends_unterminated s = true.
Proof.
  induction s as [|c s IH]; [done|]. simpl. intros Hn _.
  apply andb_true_iff in Hn as [Hc Hs]. apply negb_true_iff in Hc. rewrite Hc.
  destruct s as [|c' s']; [done|].
  destruct (IH Hs) as [-> ->]; done.
Qed.

Lemma lines_terminated l rest :
  Str.no_newline l = true →
  Str.lines (l +:+ Str.nl +:+ rest) = l :: Str.lines rest ∧
  Str.ends_unterminated (l +:+ Str.nl +:+ rest) = Str.ends_unterminated rest.
Proof.
  induction l as [|c l IH]; simpl.
  - intros _. by destruct rest.
  - intros Hn. apply andb_true_iff in Hn as [Hc Hs]. apply negb_true_iff in Hc.
    rewrite Hc. destruct (IH Hs) as [-> <-].
    split; [done|]. by destruct l.
Qed.



(** ** The incremental read, by cases on the recorded offset *)

Lemma file_size_Some fs path c :
  fs !! path = Some c → file_size fs path = Some (Z.of_nat (String.length c)).
Proof. intros Hc. unfold file_size. by rewrite Hc. Qed.

(** The offset is the length of a proper prefix [p] of the file: the read
    resumes after [p]. *)
Lemma call_callback_resume fs path m p rest :
  fs !! path = Some (p +:+ rest) → rest ≠ EmptyString →
  read_position_ m !! path = Some (Z.of_nat (String.length p)) →
  call_callback fs path m =
  (set_read_position m path
     (if Str.ends_unterminated rest then (-1)%Z
      else Z.of_nat (String.length (p +:+ rest))),
   if callback_ m then Str.lines rest else []).
Proof.
  intros Hc Hrest Hpos.
  rewrite (call_callback_spec _ _ _ _ Hc); cbn zeta.
  unfold seek_read_position. rewrite Hpos, (file_size_Some _ _ _ Hc).
  unfold ifstream_open. rewrite Hc.
  assert (0 < String.length rest) by (destruct rest; [done | simpl; lia]).
  rewrite length_app.
  destruct (Z.ltb_spec (Z.of_nat (String.length p))
              (Z.of_nat (String.length p + String.length rest))) as [_|]; [|lia].
  unfold seekg. simpl.
  destruct (Z.ltb_spec (Z.of_nat (String.length p)) 0) as [|_]; [lia|].
  unfold loop_position, loop_lines, unread. simpl.
  rewrite Nat2Z.id, drop_app_length.
  unfold end_position. simpl. unfold set_read_position.
  destruct rest; [done|]. done.
Qed.

(** The offset is not below the size of the file: the read starts over. *)
Lemma call_callback_restart fs path m c pos :
  fs !! path = Some c →
  read_position_ m !! path = Some pos →
  (Z.of_nat (String.length c) ≤ pos)%Z →
  call_callback fs path m =
  (set_read_position m path
     (if Str.ends_unterminated c then (-1)%Z else Z.of_nat (String.length c)),
   if callback_ m then Str.lines c else []).
Proof.
  intros Hc Hpos Hle.
  rewrite (call_callback_spec _ _ _ _ Hc); cbn zeta.
  unfold seek_read_position. rewrite Hpos, (file_size_Some _ _ _ Hc).
  unfold ifstream_open. rewrite Hc.
  destruct (Z.ltb_spec pos (Z.of_nat (String.length c))) as [|_]; [lia|].
  unfold loop_position, loop_lines, unread, end_position, set_read_position. simpl.
  destruct c; [done|]. done.
Qed.

(** The offset is negative: the seek fails and nothing is read. *)
Lemma call_callback_seek_failed fs path m c pos :
  fs !! path = Some c →
  read_position_ m !! path = Some pos →
  (pos < 0)%Z →
  call_callback fs path m = (set_read_position m path 0%Z, []).
Proof.
  intros Hc Hpos Hneg.
  rewrite (call_callback_spec _ _ _ _ Hc); cbn zeta.
  unfold seek_read_position. rewrite Hpos, (file_size_Some _ _ _ Hc).
  unfold ifstream_open. rewrite Hc.
  destruct (Z.ltb_spec pos (Z.of_nat (String.length c))) as [_|]; [|lia].
  unfold seekg. simpl.
  destruct (Z.ltb_spec pos 0) as [_|]; [|lia].
  unfold loop_position, loop_lines, set_read_position. simpl.
  by destruct (callback_ m).
Qed.

Lemma call_callback_lines fs path m c pos :
  fs !! path = Some c →
  read_position_ m !! path = Some pos →
  (call_callback fs path m).2 =
  if callback_ m then
    if (pos <? Z.of_nat (String.length c))%Z then
      if (pos <? 0)%Z then [] else Str.lines (Str.drop (Z.to_nat pos) c)
    else Str.lines c
  else [].
Proof.
  intros Hc Hpos.
  rewrite (call_callback_spec _ _ _ _ Hc); cbn zeta. simpl.
  destruct (callback_ m); [|done].
  unfold seek_read_position. rewrite Hpos, (file_size_Some _ _ _ Hc).
  unfold ifstream_open. rewrite Hc.
  destruct (pos <? Z.of_nat (String.length c))%Z; [|done].
  unfold seekg. simpl. by destruct (pos <? 0)%Z.
Qed.

(** C2, as amended. An incremental read that resumes after [p], in a file
    that goes on with the terminated lines [A] and [B] and a trailing
    fragment [C], invokes the callback for [A], [B] and [C], once each, in
    file order and without terminators; when the file ends right after the
    terminator of [B], the callback is invoked for [A] and [B] only and the
    offset recorded is the position that follows the terminator of [B]. *)
Theorem tail_read_delivers_lines_and_fragment fs path m (p A B C : string) :
  Str.no_newline A = true → Str.no_newline B = true → Str.no_newline C = true →
  fs !! path = Some (p +:+ A +:+ Str.nl +:+ B +:+ Str.nl +:+ C) →
  read_position_ m !! path = Some (Z.of_nat (String.length p)) →
  callback_ m = true →
  (C ≠ EmptyString → (call_callback fs path m).2 = [A; B; C]) ∧
  (C = EmptyString →
     (call_callback fs path m).2 = [A; B] ∧
     read_position_ (call_callback fs path m).1 !! path =
       Some (Z.of_nat (String.length (p +:+ A +:+ Str.nl +:+ B +:+ Str.nl)))).
Proof.
  intros HA HB HC Hfs Hpos Hcb.
  assert (A +:+ Str.nl +:+ B +:+ Str.nl +:+ C ≠ EmptyString) as Hne.
  { destruct A; discriminate. }
  rewrite (call_callback_resume _ _ _ _ _ Hfs Hne Hpos), Hcb. simpl.
  destruct (lines_terminated A (B +:+ Str.nl +:+ C) HA) as [-> ->].
  destruct (lines_terminated B C HB) as [-> ->].
  split.
  - intros HCne. by destruct (lines_fragment C HC HCne) as [-> _].
  - intros ->. split; [done|]. simpl. by rewrite lookup_insert_eq.
Qed.

(** C4, as amended. An incremental read seeks to the recorded offset when
    it is strictly below the size of the file and reads from the start
    otherwise; hence when the file, after [A] and [B] were delivered, was
    rewritten with the one line [D] and is not longer than the recorded
    offset, the callback is invoked for [D] alone and the offset recorded
    is the end of the file. *)
Theorem rewritten_file_read_from_start fs path m (c : string) (pos : Z) :
  fs !! path = Some c →
  read_position_ m !! path = Some pos →
  callback_ m = true →
  (call_callback fs path m).2 =
    (if (pos <? Z.of_nat (String.length c))%Z then
       if (pos <? 0)%Z then [] else Str.lines (Str.drop (Z.to_nat pos) c)
     else Str.lines c) ∧
  (∀ A B D : string,
     Str.no_newline D = true →
     c = D +:+ Str.nl →
     pos = Z.of_nat (String.length (A +:+ Str.nl +:+ B +:+ Str.nl)) →
     String.length c ≤ String.length (A +:+ Str.nl +:+ B +:+ Str.nl) →
     (call_callback fs path m).2 = [D] ∧
     read_position_ (call_callback fs path m).1 !! path =
       Some (Z.of_nat (String.length c))).
Proof.
  intros Hc Hpos Hcb. split.
  - by rewrite (call_callback_lines _ _ _ _ _ Hc Hpos), Hcb.
  - intros A B D HD -> -> Hle.
    rewrite (call_callback_restart _ _ _ _ _ Hc Hpos) by lia.
    rewrite Hcb. simpl. rewrite lookup_insert_eq.
    rewrite <- (app_nil_r_string (D +:+ Str.nl)), app_assoc_string.
    destruct (lines_terminated D EmptyString HD) as [-> ->]. done.
Qed.

(** C10. When the file opens and [std::getline] yields no line, the offset
    recorded for the path is 0, the default-constructed position, whatever
    offset was recorded before. *)
Theorem no_line_read_resets_offset fs path m (c : string) :
  fs !! path = Some c →
  lines_read fs path m = [] →
  read_position_ (call_callback fs path m).1 !! path = Some 0%Z.
Proof.
  intros Hc Hread. unfold lines_read in Hread. cbn zeta in Hread.
  rewrite (call_callback_spec _ _ _ _ Hc); cbn zeta.
  set (s := seek_read_position fs path m (ifstream_open fs path)) in *.
  destruct (getline_loop_spec (deliver true) s EmptyString []) as (s' & Heq & _).
  { apply eofbit_seek_read_position, eofbit_open. }
  rewrite Heq, foldl_deliver in Hread. simpl in Hread.
  simpl. rewrite lookup_insert_eq.
  unfold loop_lines in Hread. unfold loop_position.
  destruct (failbit s); [done|].
  apply lines_nil_inv in Hread. by rewrite Hread.
Qed.

(** C5. Neither an incremental read, nor a tick, nor any run of ticks
    changes what [get_initial_lines] returns. *)
Theorem initial_lines_never_updated :
  (∀ fs path m,
     get_initial_lines (call_callback fs path m).1 = get_initial_lines m) ∧
  (∀ fs m, get_initial_lines (timer_event fs m).1 = get_initial_lines m) ∧
  (∀ fss m, get_initial_lines (timer_events fss m).1 = get_initial_lines m).
Proof.
  assert (∀ fs path m,
            initial_lines_ (call_callback fs path m).1 = initial_lines_ m) as Hcall.
  { intros fs path m. unfold call_callback.
    destruct (failbit _); [done|].
    by destruct (getline_loop _ _ _ _ _ _) as [[? ?] ?]. }
  assert (∀ fs m, initial_lines_ (timer_event fs m).1 = initial_lines_ m) as Htick.
  { intros fs m. unfold timer_event.
    generalize (@nil string) at 1. generalize (files_ m) as files.
    intros files; revert m.
    induction files as [|f files IH]; intros m tr; [done|].
    cbn [foldl]. unfold timer_event_file at 2.
    destruct (file_size fs f); [|apply IH].
    destruct (read_position_ m !! f); [|apply IH].
    destruct (negb _); [|apply IH].
    specialize (Hcall fs f m).
    destruct (call_callback fs f m) as [m1 t]. rewrite IH. done. }
  split; [done|]. split; [done|].
  intros fss m. unfold timer_events, get_initial_lines.
  generalize (@nil string). revert m.
  induction fss as [|fs fss IH]; intros m tr; [done|].
  cbn [foldl]. simpl. specialize (Htick fs m).
  destruct (timer_event fs m) as [m1 t]. rewrite IH. done.
Qed.

Section Scan.
Variable get_sort_key : string → option N.

(** C3, as amended. When the file cannot be opened, the historical scan
    leaves the buffer as it is, and the offset recorded for the path is 0. *)
Theorem missing_file_scan fs path m :
  fs !! path = None →
  initial_lines_ (add_initial_lines get_sort_key fs path m) = initial_lines_ m ∧
  read_position_ (add_initial_lines get_sort_key fs path m) !! path = Some 0%Z.
Proof.
  intros Hc. rewrite add_initial_lines_spec. simpl.
  rewrite lookup_insert_eq. unfold loop_lines, loop_position, ifstream_open.
  by rewrite Hc.
Qed.

End Scan.

Lemma ends_unterminated_drop n s :
  n < String.length s → Str.ends_unterminated (Str.drop n s) = Str.ends_unterminated s.
Proof.
  revert s; induction n as [|n IH]; intros s Hn; [done|].
  destruct s as [|c s]; [simpl in Hn; lia|].
  cbn [Str.drop]. rewrite IH by (simpl in Hn; lia).
  destruct s; [simpl in Hn; lia | done].
Qed.

(** ** One tick *)

(** What a tick leaves alone. *)
Lemma call_callback_frame fs f m :
  callback_ (call_callback fs f m).1 = callback_ m ∧
  files_ (call_callback fs f m).1 = files_ m ∧
  ∀ path, f ≠ path →
    read_position_ (call_callback fs f m).1 !! path = read_position_ m !! path.
Proof.
  unfold call_callback. destruct (failbit _); [done|].
  destruct (getline_loop _ _ _ _ _ _) as [[? ?] ?]. simpl.
  repeat split. intros path Hne. by rewrite lookup_insert_ne.
Qed.

Lemma timer_event_file_trace fs m tr f :
  timer_event_file fs (m, tr) f =
  ((timer_event_file fs (m, []) f).1, tr ++ (timer_event_file fs (m, []) f).2).
Proof.
  unfold timer_event_file.
  destruct (file_size fs f); [|by rewrite app_nil_r].
  destruct (read_position_ m !! f); [|by rewrite app_nil_r].
  destruct (negb _); [|by rewrite app_nil_r].
  by destruct (call_callback fs f m).
Qed.

Lemma timer_event_file_frame fs m f :
  callback_ (timer_event_file fs (m, []) f).1 = callback_ m ∧
  files_ (timer_event_file fs (m, []) f).1 = files_ m ∧
  ∀ path, f ≠ path →
    read_position_ (timer_event_file fs (m, []) f).1 !! path = read_position_ m !! path.
Proof.
  unfold timer_event_file.
  destruct (file_size fs f); [|done].
  destruct (read_position_ m !! f); [|done].
  destruct (negb _); [|done].
  pose proof (call_callback_frame fs f m) as H.
  by destruct (call_callback fs f m).
Qed.

Lemma timer_event_files_frame fs files m tr path :
  path ∉ files →
  ∃ m' t, foldl (timer_event_file fs) (m, tr) files = (m', tr ++ t) ∧
          callback_ m' = callback_ m ∧ files_ m' = files_ m ∧
          read_position_ m' !! path = read_position_ m !! path.
Proof.
  revert m tr; induction files as [|f files IH]; intros m tr Hnin.
  - exists m, []. by rewrite app_nil_r.
  - apply not_elem_of_cons in Hnin as [Hne Hnin].
    cbn [foldl]. rewrite timer_event_file_trace.
    destruct (timer_event_file_frame fs m f) as (Hcb & Hfiles & Hpos).
    destruct (IH (timer_event_file fs (m, []) f).1
                 (tr ++ (timer_event_file fs (m, []) f).2) Hnin)
      as (m' & t & -> & Hcb' & Hfiles' & Hpos').
    exists m', ((timer_event_file fs (m, []) f).2 ++ t).
    rewrite app_assoc. repeat split; [congruence | congruence |].
    rewrite Hpos'. by apply Hpos.
Qed.

(** A tick on a polled file whose offset differs from its size runs the
    incremental read on it once. *)
Lemma timer_event_polled fs m path c pos :
  NoDup (files_ m) → path ∈ files_ m →
  fs !! path = Some c →
  read_position_ m !! path = Some pos →
  pos ≠ Z.of_nat (String.length c) →
  ∃ m1 t1 t2 m3,
    timer_event fs m = (m3, t1 ++ (call_callback fs path m1).2 ++ t2) ∧
    callback_ m1 = callback_ m ∧ read_position_ m1 !! path = Some pos ∧
    callback_ m3 = callback_ m ∧ files_ m3 = files_ m ∧
    read_position_ m3 !! path = read_position_ (call_callback fs path m1).1 !! path.
Proof.
  intros Hnd Hin Hc Hpos Hne. unfold timer_event.
  apply list_elem_of_split in Hin as (pre & post & Hfiles).
  rewrite Hfiles in Hnd. apply NoDup_app in Hnd as (_ & Hpre & Hpost).
  apply NoDup_cons in Hpost as [Hpost _].
  assert (path ∉ pre) as Hnpre.
  { intros Hin. apply (Hpre _ Hin). by left. }
  rewrite Hfiles, foldl_app. cbn [foldl].
  destruct (timer_event_files_frame fs pre m [] path Hnpre)
    as (m1 & t1 & -> & Hcb1 & Hf1 & Hp1).
  rewrite app_nil_l, timer_event_file_trace.
  assert (timer_event_file fs (m1, []) path = call_callback fs path m1) as ->.
  { unfold timer_event_file.
    rewrite (file_size_Some _ _ _ Hc), Hp1, Hpos.
    destruct (Z.eqb_spec pos (Z.of_nat (String.length c))) as [|_]; [done|].
    simpl. by destruct (call_callback fs path m1). }
  pose proof (call_callback_frame fs path m1) as (Hcb2 & Hf2 & _).
  destruct (timer_event_files_frame fs post (call_callback fs path m1).1
              (t1 ++ (call_callback fs path m1).2) path Hpost)
    as (m3 & t3 & -> & Hcb3 & Hf3 & Hp3).
  exists m1, t1, t3, m3. rewrite <- app_assoc.
  repeat split; [congruence | congruence | congruence | congruence | done].
Qed.

(** ** Runs of ticks *)

Lemma timer_events_trace fss m tr :
  foldl (λ acc fs, let '(m1, t) := timer_event fs acc.1 in (m1, acc.2 ++ t))
        (m, tr) fss =
  ((timer_events fss m).1, tr ++ (timer_events fss m).2).
Proof.
  unfold timer_events. revert m tr.
  induction fss as [|fs fss IH]; intros m tr.
  - simpl. by rewrite app_nil_r.
  - cbn [foldl fst snd]. destruct (timer_event fs m) as [m1 t1].
    rewrite (IH m1 (tr ++ t1)), (IH m1 ([] ++ t1)).
    cbn [fst snd]. by rewrite app_nil_l, <- app_assoc.
Qed.

Lemma timer_events_cons fs fss m :
  timer_events (fs :: fss) m =
  ((timer_events fss (timer_event fs m).1).1,
   (timer_event fs m).2 ++ (timer_events fss (timer_event fs m).1).2).
Proof.
  unfold timer_events at 1. cbn [foldl fst snd].
  destruct (timer_event fs m) as [m1 t1]. by rewrite timer_events_trace.
Qed.

Lemma timer_event_unterminated fs m path c pos :
  Str.ends_unterminated c = true →
  NoDup (files_ m) → path ∈ files_ m → callback_ m = true →
  fs !! path = Some c →
  read_position_ m !! path = Some pos → pos = (-1)%Z ∨ pos = 0%Z →
  let m' := (timer_event fs m).1 in
  NoDup (files_ m') ∧ path ∈ files_ m' ∧ callback_ m' = true ∧
  read_position_ m' !! path = Some (flip_offset pos) ∧
  (pos = 0%Z → ∃ t1 t2, (timer_event fs m).2 = t1 ++ Str.lines c ++ t2).
Proof.
  intros Hend Hnd Hin Hcb Hc Hpos Hcase m'.
  assert (c ≠ EmptyString) as Hne by (by intros ->).
  assert (0 < String.length c) as Hlen by (destruct c; [done | simpl; lia]).
  destruct (timer_event_polled fs m path c pos Hnd Hin Hc Hpos)
    as (m1 & t1 & t2 & m3 & Heq & Hcb1 & Hp1 & Hcb3 & Hf3 & Hp3).
  { destruct Hcase; lia. }
  subst m'. rewrite Heq. simpl.
  rewrite Hf3, Hcb3, Hp3. repeat split; [done | done | done | |].
  - destruct Hcase as [-> | ->].
    + rewrite (call_callback_seek_failed _ _ _ _ _ Hc Hp1) by lia.
      simpl. by rewrite lookup_insert_eq.
    + rewrite (call_callback_resume fs path m1 EmptyString c Hc Hne Hp1).
      simpl. by rewrite lookup_insert_eq, Hend.
  - intros ->. exists t1, t2.
    rewrite (call_callback_resume fs path m1 EmptyString c Hc Hne Hp1).
    simpl. by rewrite Hcb1, Hcb.
Qed.

Lemma delivers_app_l t t' c : delivers t c → delivers (t ++ t') c.
Proof.
  intros (t1 & t2 & ->). exists t1, (t2 ++ t'). by rewrite <- !app_assoc.
Qed.

Lemma delivers_app_r t t' c : delivers t' c → delivers (t ++ t') c.
Proof.
  intros (t1 & t2 & ->). exists (t ++ t1), t2. by rewrite <- !app_assoc.
Qed.

(** The incremental read of a file that ends in a fragment, from the two
    offsets it alternates between. *)
Lemma call_callback_unterminated fs path m c pos :
  Str.ends_unterminated c = true →
  fs !! path = Some c → callback_ m = true →
  read_position_ m !! path = Some pos → pos = (-1)%Z ∨ pos = 0%Z →
  call_callback fs path m =
  (set_read_position m path (flip_offset pos),
   if (pos =? 0)%Z then Str.lines c else []).
Proof.
  intros Hend Hc Hcb Hpos [-> | ->].
  - by rewrite (call_callback_seek_failed _ _ _ _ _ Hc Hpos).
  - assert (c ≠ EmptyString) as Hne by (by intros ->).
    rewrite (call_callback_resume fs path m EmptyString c Hc Hne Hpos).
    by rewrite Hend, Hcb.
Qed.

(** The files of a tick, with [path] among them any number of times. *)
Lemma timer_event_files_unterminated fs path c files :
  Str.ends_unterminated c = true → fs !! path = Some c →
  ∀ m tr pos,
    callback_ m = true →
    read_position_ m !! path = Some pos → pos = (-1)%Z ∨ pos = 0%Z →
    ∃ m' t pos',
      foldl (timer_event_file fs) (m, tr) files = (m', tr ++ t) ∧
      callback_ m' = true ∧ files_ m' = files_ m ∧
      read_position_ m' !! path = Some pos' ∧ (pos' = (-1)%Z ∨ pos' = 0%Z) ∧
      (path ∈ files → pos = 0%Z → delivers t c) ∧
      (path ∈ files → pos = (-1)%Z → delivers t c ∨ pos' = 0%Z).
Proof.
  intros Hend Hc.
  assert (0 < String.length c) as Hlen by (destruct c; [done | simpl; lia]).
  induction files as [|f files IH]; intros m tr pos Hcb Hpos Hcase.
  - exists m, [], pos. rewrite app_nil_r.
    repeat split; try done; intros Hin; by apply elem_of_nil in Hin.
  - cbn [foldl]. rewrite timer_event_file_trace.
    destruct (decide (f = path)) as [-> | Hne].
    + assert (timer_event_file fs (m, []) path = call_callback fs path m) as ->.
      { unfold timer_event_file. rewrite (file_size_Some _ _ _ Hc), Hpos.
        destruct (Z.eqb_spec pos (Z.of_nat (String.length c))) as [|_];
          [destruct Hcase; lia|].
        simpl. by destruct (call_callback fs path m). }
      rewrite (call_callback_unterminated _ _ _ _ _ Hend Hc Hcb Hpos Hcase).
      cbn [fst snd].
      destruct (IH (set_read_position m path (flip_offset pos))
                  (tr ++ (if (pos =? 0)%Z then Str.lines c else []))
                  (flip_offset pos))
        as (m' & t & pos' & Heq & Hcb' & Hf' & Hpos' & Hcase' & Hzero & Hminus).
      { done. }
      { simpl. by rewrite lookup_insert_eq. }
      { destruct Hcase as [-> | ->]; [by right | by left]. }
      exists m', ((if (pos =? 0)%Z then Str.lines c else []) ++ t), pos'.
      rewrite Heq, app_assoc. repeat split; try done.
      * intros _ ->. apply delivers_app_l. exists [], []. by rewrite app_nil_r.
      * intros _ ->. destruct (decide (path ∈ files)) as [Hin | Hnin].
        -- left. apply delivers_app_r. by apply Hzero.
        -- right.
           destruct (timer_event_files_frame fs files
                       (set_read_position m path (flip_offset (-1)))
                       (tr ++ (if (-1 =? 0)%Z then Str.lines c else [])) path Hnin)
             as (m2 & t2 & Heq2 & _ & _ & Hp2).
           rewrite Heq in Heq2. injection Heq2 as <- _.
           rewrite Hp2 in Hpos'. simpl in Hpos'.
           rewrite lookup_insert_eq in Hpos'. by injection Hpos' as <-.
    + destruct (timer_event_file_frame fs m f) as (Hcb1 & Hf1 & Hp1).
      destruct (IH (timer_event_file fs (m, []) f).1
                  (tr ++ (timer_event_file fs (m, []) f).2) pos)
        as (m' & t & pos' & -> & Hcb' & Hf' & Hpos' & Hcase' & Hzero & Hminus).
      { congruence. }
      { by rewrite Hp1. }
      { done. }
      exists m', ((timer_event_file fs (m, []) f).2 ++ t), pos'.
      rewrite app_assoc. repeat split; try done; [congruence | |].
      * intros Hin Hz. apply delivers_app_r, Hzero; [|done].
        apply elem_of_cons in Hin as [Heq | Hin]; [congruence | done].
      * intros Hin Hz.
        apply elem_of_cons in Hin as [Heq | Hin]; [congruence|].
        destruct (Hminus Hin Hz) as [Hd | Hp];
          [left; by apply delivers_app_r | by right].
Qed.

(** One tick on a monitor that polls [path]. *)
Lemma timer_event_reread fs path c m pos :
  Str.ends_unterminated c = true → fs !! path = Some c →
  path ∈ files_ m → callback_ m = true →
  read_position_ m !! path = Some pos → pos = (-1)%Z ∨ pos = 0%Z →
  ∃ pos',
    callback_ (timer_event fs m).1 = true ∧
    files_ (timer_event fs m).1 = files_ m ∧
    read_position_ (timer_event fs m).1 !! path = Some pos' ∧
    (pos' = (-1)%Z ∨ pos' = 0%Z) ∧
    (pos = 0%Z → delivers (timer_event fs m).2 c) ∧
    (pos = (-1)%Z → delivers (timer_event fs m).2 c ∨ pos' = 0%Z).
Proof.
  intros Hend Hc Hin Hcb Hpos Hcase. unfold timer_event.
  destruct (timer_event_files_unterminated fs path c (files_ m) Hend Hc m [] pos
              Hcb Hpos Hcase)
    as (m' & t & pos' & -> & Hcb' & Hf' & Hpos' & Hcase' & Hzero & Hminus).
  exists pos'. simpl. repeat split; try done; auto.
Qed.

Lemma timer_events_reread path c fss :
  Str.ends_unterminated c = true →
  Forall (λ fs : gmap string string, fs !! path = Some c) fss →
  ∀ m pos,
    path ∈ files_ m → callback_ m = true →
    read_position_ m !! path = Some pos → pos = (-1)%Z ∨ pos = 0%Z →
    ∃ pos',
      callback_ (timer_events fss m).1 = true ∧
      files_ (timer_events fss m).1 = files_ m ∧
      read_position_ (timer_events fss m).1 !! path = Some pos' ∧
      (pos' = (-1)%Z ∨ pos' = 0%Z).
Proof.
  intros Hend. induction 1 as [|fs fss Hc _ IH]; intros m pos Hin Hcb Hpos Hcase.
  - by exists pos.
  - rewrite timer_events_cons. cbn [fst].
    destruct (timer_event_reread fs path c m pos Hend Hc Hin Hcb Hpos Hcase)
      as (pos1 & Hcb1 & Hf1 & Hpos1 & Hcase1 & _).
    destruct (IH (timer_event fs m).1 pos1) as (pos' & ? & Hf' & ? & ?);
      [by rewrite Hf1 | done | done | done |].
    exists pos'. repeat split; try done. by rewrite Hf', Hf1.
Qed.

Lemma two_ticks_reread path c fs1 fs2 m pos :
  Str.ends_unterminated c = true →
  fs1 !! path = Some c → fs2 !! path = Some c →
  path ∈ files_ m → callback_ m = true →
  read_position_ m !! path = Some pos → pos = (-1)%Z ∨ pos = 0%Z →
  delivers (timer_events [fs1; fs2] m).2 c.
Proof.
  intros Hend Hc1 Hc2 Hin Hcb Hpos Hcase.
  rewrite !timer_events_cons. cbn [fst snd]. unfold timer_events at 1. simpl.
  rewrite app_nil_r.
  destruct (timer_event_reread fs1 path c m pos Hend Hc1 Hin Hcb Hpos Hcase)
    as (pos1 & Hcb1 & Hf1 & Hpos1 & Hcase1 & Hzero1 & Hminus1).
  destruct (timer_event_reread fs2 path c (timer_event fs1 m).1 pos1 Hend Hc2)
    as (pos2 & _ & _ & _ & _ & Hzero2 & _); [by rewrite Hf1 | done | done | done |].
  destruct Hcase as [-> | ->].
  - destruct (Hminus1 eq_refl) as [Hd | ->].
    + by apply delivers_app_l.
    + by apply delivers_app_r, Hzero2.
  - by apply delivers_app_l, Hzero1.
Qed.

(** C9. For a file that ends with an unterminated fragment: an incremental
    read from a valid offset records -1, the value of [tellg] on a stream
    at the end of the file. From then on, on every tick with the file
    unchanged, the offset recorded is -1 or 0 and never the size of the
    file; when the polled files are distinct it is -1 after an even number
    of ticks and 0 after an odd number (the seek to -1 fails and leaves 0);
    and any two ticks in a row deliver all the lines of the file again. *)
Theorem unterminated_tail_reread (path c : string) :
  Str.ends_unterminated c = true →
  (∀ fs m pos,
     fs !! path = Some c → read_position_ m !! path = Some pos → (0 ≤ pos)%Z →
     read_position_ (call_callback fs path m).1 !! path = Some (-1)%Z) ∧
  (∀ m fss,
     path ∈ files_ m → callback_ m = true →
     read_position_ m !! path = Some (-1)%Z →
     Forall (λ fs : gmap string string, fs !! path = Some c) fss →
     let m' := (timer_events fss m).1 in
     (read_position_ m' !! path = Some (-1)%Z ∨
      read_position_ m' !! path = Some 0%Z) ∧
     read_position_ m' !! path ≠ Some (Z.of_nat (String.length c)) ∧
     (NoDup (files_ m) →
      read_position_ m' !! path =
        Some (if Nat.even (length fss) then (-1)%Z else 0%Z)) ∧
     (∀ fs1 fs2,
        fs1 !! path = Some c → fs2 !! path = Some c →
        delivers (timer_events [fs1; fs2] m').2 c)).
Proof.
  intros Hend.
  assert (c ≠ EmptyString) as Hne by (by intros ->).
  assert (0 < String.length c) as Hlen by (destruct c; [done | simpl; lia]).
  split.
  - intros fs m pos Hc Hpos Hge.
    rewrite (call_callback_spec _ _ _ _ Hc); cbn zeta. simpl.
    rewrite lookup_insert_eq. f_equal.
    unfold seek_read_position. rewrite Hpos, (file_size_Some _ _ _ Hc).
    unfold ifstream_open. rewrite Hc.
    destruct (Z.ltb_spec pos (Z.of_nat (String.length c))) as [Hlt|Hle].
    + unfold seekg. simpl. destruct (Z.ltb_spec pos 0) as [|_]; [lia|].
      unfold loop_position, unread, end_position. simpl.
      rewrite ends_unterminated_drop, Hend by lia.
      destruct (Str.drop (Z.to_nat pos) c) eqn:Hd; [|done].
      pose proof (length_drop (Z.to_nat pos) c) as Hl. rewrite Hd in Hl.
      simpl in Hl. lia.
    + unfold loop_position, unread, end_position. simpl. rewrite Hend.
      by destruct c.
  - intros m fss Hin Hcb Hpos Hall.
    destruct (timer_events_reread path c fss Hend Hall m (-1)%Z Hin Hcb Hpos)
      as (pos' & Hcb' & Hf' & Hpos' & Hcase'); [by left|].
    cbn zeta. split; [|split; [|split]].
    + rewrite Hpos'. destruct Hcase' as [-> | ->]; [by left | by right].
    + rewrite Hpos'. intros [= ->]. destruct Hcase'; lia.
    + intros Hnd.
      assert (∀ fss m pos,
        Forall (λ fs : gmap string string, fs !! path = Some c) fss →
        NoDup (files_ m) → path ∈ files_ m → callback_ m = true →
        read_position_ m !! path = Some pos → pos = (-1)%Z ∨ pos = 0%Z →
        read_position_ (timer_events fss m).1 !! path =
          Some (if Nat.even (length fss) then pos else flip_offset pos)) as Hrun.
      { clear m fss Hin Hcb Hpos Hall pos' Hcb' Hf' Hpos' Hcase' Hnd.
        induction fss as [|fs fss IH]; intros m pos Hall Hnd Hin Hcb Hpos Hcase.
        - done.
        - apply Forall_cons in Hall as [Hc Hall].
          rewrite timer_events_cons. cbn [fst length].
          destruct (timer_event_unterminated fs m path c pos Hend Hnd Hin Hcb Hc Hpos Hcase)
            as (Hnd1 & Hin1 & Hcb1 & Hpos1 & _).
          rewrite (IH _ _ Hall Hnd1 Hin1 Hcb1 Hpos1)
            by (destruct Hcase as [-> | ->]; [by right | by left]).
          rewrite Nat.even_succ, <- Nat.negb_even.
          destruct (Nat.even (length fss)); simpl; [done|].
          by destruct Hcase as [-> | ->]. }
      by rewrite (Hrun fss m (-1)%Z Hall Hnd Hin Hcb Hpos) by (by left).
    + intros fs1 fs2 Hc1 Hc2.
      apply (two_ticks_reread path c fs1 fs2 _ pos' Hend Hc1 Hc2); try done.
      by rewrite Hf'.
Qed.

(** * Further properties *)

(** ** More on the historical buffer *)

Lemma erase_while_over_drop (b : list (N * string)) :
  erase_while_over b = drop (length b - 250) b.
Proof.
  induction b as [|x b IH]; [done|].
  cbn [erase_while_over]. unfold max_initial_lines.
  destruct (Nat.ltb_spec 250 (length (x :: b))) as [Hlt|Hge].
  - rewrite IH. simpl in Hlt. simpl length.
    replace (S (length b) - 250) with (S (length b - 250)) by lia. done.
  - simpl in Hge. simpl length.
    by replace (S (length b) - 250) with 0 by lia.
Qed.

(** X1. The eviction loop removes the excess from the front and nothing
    else: what is left is the last 250 entries, or the whole buffer when it
    holds no more than 250. *)
Theorem eviction_keeps_last_250 (b : list (N * string)) :
  erase_while_over b = drop (length b - 250) b ∧
  length (erase_while_over b) = Nat.min 250 (length b).
Proof.
  split; [apply erase_while_over_drop|].
  rewrite erase_while_over_drop, list.length_drop. lia.
Qed.

Lemma erase_while_over_nonempty b : b ≠ [] → erase_while_over b ≠ [].
Proof.
  intros Hne Heq. apply (f_equal length) in Heq.
  rewrite erase_while_over_drop, list.length_drop in Heq.
  destruct b; [done|]. simpl in Heq. lia.
Qed.

Lemma erase_while_over_last b : last (erase_while_over b) = last b.
Proof.
  destruct (decide (b = [])) as [-> | Hne]; [done|].
  destruct (erase_while_over_suffix b) as [pre Heq].
  rewrite Heq at 2. rewrite last_app.
  pose proof (erase_while_over_nonempty b Hne) as Hn.
  destruct (last (erase_while_over b)) eqn:Hl; [done|].
  by apply last_None in Hl.
Qed.

Section BufferMore.
Variable get_sort_key : string → option N.

(** A line that is not older than any entry goes to the end. *)
Lemma add_initial_line_newest line k b :
  get_sort_key line = Some k →
  Forall (λ x, (x.1 ≤ k)%N) b →
  add_initial_line get_sort_key line b = (b ++ [(k, line)], true).
Proof.
  intros Hk Hall. unfold add_initial_line. rewrite Hk.
  destruct (head b) as [front|] eqn:Hh; [|done].
  destruct (last b) as [back|] eqn:Hl; [|done].
  assert (front ∈ b) as Hin by (by apply head_Some_elem_of).
  rewrite Forall_forall in Hall.
  destruct (N.ltb_spec k front.1) as [Hlt|_]; [specialize (Hall _ Hin); simpl in *; lia|].
  destruct (back.1 <? k)%N; [done|].
  rewrite insert_before_greater_push_back; [done|].
  by apply Forall_forall.
Qed.

(** X2. A line whose key is not below any key of the buffer is always
    kept, also at capacity, and is the last entry after the scan. *)
Theorem newest_line_is_last (line : string) (k : N) (b : list (N * string)) :
  get_sort_key line = Some k →
  Forall (λ x, (x.1 ≤ k)%N) b →
  last (scan_line get_sort_key line b) = Some (k, line).
Proof.
  intros Hk Hall. unfold scan_line.
  rewrite (add_initial_line_newest _ _ _ Hk Hall).
  by rewrite erase_while_over_last, last_snoc.
Qed.

(** X3. On a sorted buffer within capacity, a line with a key below the
    key of the first entry is discarded whatever the size of the buffer,
    also when there is room; every other line with a key is in the buffer
    after the scan, which then holds one entry more, or 250. *)
Theorem scan_line_keeps_or_discards (line : string) (k : N) (b : list (N * string)) :
  get_sort_key line = Some k →
  sorted_by_key b → length b ≤ 250 →
  (∀ front, head b = Some front → (k < front.1)%N →
     scan_line get_sort_key line b = b) ∧
  ((∀ front, head b = Some front → (front.1 ≤ k)%N) →
     (k, line) ∈ scan_line get_sort_key line b ∧
     length (scan_line get_sort_key line b) = Nat.min 250 (S (length b))).
Proof.
  intros Hk Hs Hlen. split.
  - intros front Hh Hlt. unfold scan_line, add_initial_line. rewrite Hk, Hh.
    destruct (last b) eqn:Hl.
    + apply N.ltb_lt in Hlt. by rewrite Hlt.
    + apply last_None in Hl. by subst.
  - intros Hfront.
    assert (add_initial_line get_sort_key line b =
              (insert_before_greater (k, line) b, true)) as Hadd.
    { destruct (add_initial_line_cases get_sort_key line b Hs)
        as [Hno | (k' & Hk' & ->)]; [|congruence].
      exfalso. revert Hno. unfold add_initial_line. rewrite Hk.
      destruct (head b) as [front|] eqn:Hh; [|destruct b; [done|done]].
      destruct (last b) as [back|] eqn:Hl; [|done].
      destruct (N.ltb_spec k front.1) as [Hlt|_];
        [specialize (Hfront _ eq_refl); lia|].
      destruct (back.1 <? k)%N; done. }
    unfold scan_line. rewrite Hadd, erase_while_over_drop.
    destruct (insert_before_greater_position (k, line) b)
      as (pre & post & Hb & Hins & Hpre & Hpost).
    rewrite Hins.
    assert (length (pre ++ (k, line) :: post) = S (length b)) as Hl.
    { rewrite Hb, !List.length_app. simpl. lia. }
    rewrite Hl. split.
    + assert (S (length b) - 250 ≤ length pre) as Hle.
      { destruct pre as [|x pre]; [|simpl; lia].
        destruct b as [|front b]; [simpl; lia|].
        exfalso. simpl in Hb. subst post.
        specialize (Hpost front eq_refl). specialize (Hfront front eq_refl).
        simpl in *. lia. }
      rewrite drop_app_le by done. apply elem_of_app. right. by left.
    + rewrite list.length_drop, Hl. lia.
Qed.

(** X4. Every entry of the buffer is one of the scanned lines, paired
    with the key the extractor gives for it. *)
Theorem buffer_entries_are_scanned_lines (lines : list string) (e : N * string) :
  e ∈ foldl (λ b l, scan_line get_sort_key l b) [] lines →
  e.2 ∈ lines ∧ get_sort_key e.2 = Some e.1.
Proof.
  assert (∀ lines b,
    sorted_by_key b ∧ length b ≤ max_initial_lines →
    e ∈ foldl (λ b l, scan_line get_sort_key l b) b lines →
    e ∈ b ∨ (e.2 ∈ lines ∧ get_sort_key e.2 = Some e.1)) as H.
  { clear lines. induction lines as [|l lines IH]; intros b Hb Hin; [by left|].
    cbn [foldl] in Hin.
    destruct (IH _ (scan_line_invariant get_sort_key l b Hb) Hin) as [Hin'|[? ?]].
    - destruct (scan_line_cases get_sort_key l b (proj1 Hb)) as [Heq | (k & Hk & Heq)];
        rewrite Heq in Hin'; [by left|].
      apply (λ H, elem_of_sublist _ _ _ H (erase_while_over_sublist _)) in Hin'.
      apply (proj1 (Forall_forall (λ x, x = (k, l) ∨ x ∈ b) _)) with (x := e) in Hin';
        [|apply Forall_insert_before_greater; split;
          [by left | apply Forall_forall; by right]].
      destruct Hin' as [-> | ?]; [|by left].
      right. simpl. split; [by left | done].
    - right. split; [by right | done]. }
  intros Hin. destruct (H lines [] (conj (SSorted_nil _) (Nat.le_0_l _)) Hin) as [Hnil|?];
    [by apply elem_of_nil in Hnil | done].
Qed.

Lemma candidates_snoc lines l :
  candidates get_sort_key (lines ++ [l]) =
  candidates get_sort_key lines ++ candidates get_sort_key [l].
Proof. unfold candidates. by rewrite omap_app. Qed.

(** X5. When the keys of the scanned lines never decrease, the buffer is
    exactly the last 250 lines that have a key (all of them when there are
    fewer), in the order of the scan. *)
Theorem chronological_scan_keeps_last (lines : list string) :
  sorted_by_key (candidates get_sort_key lines) →
  foldl (λ b l, scan_line get_sort_key l b) [] lines =
  drop (length (candidates get_sort_key lines) - 250) (candidates get_sort_key lines).
Proof.
  induction lines as [|l lines IH] using rev_ind; [done|].
  rewrite candidates_snoc, foldl_snoc.
  set (c := candidates get_sort_key lines) in *.
  assert (candidates get_sort_key [l] =
            match get_sort_key l with Some k => [(k, l)] | None => [] end) as ->.
  { unfold candidates. simpl. by destruct (get_sort_key l). }
  destruct (get_sort_key l) as [k|] eqn:Hk.
  - intros Hs.
    assert (sorted_by_key c ∧ Forall (λ x, (x.1 ≤ k)%N) c) as [Hc Hall].
    { clear IH. unfold sorted_by_key in *.
      induction c as [|x c IHc]; [by split; constructor|].
      simpl in Hs. apply StronglySorted_inv in Hs as [Hs Hx].
      destruct (IHc Hs) as [? ?]. apply Forall_app in Hx as [Hx1 Hx2].
      apply Forall_inv in Hx2. split.
      - by constructor.
      - constructor; [exact Hx2 | done]. }
    rewrite (IH Hc). unfold scan_line.
    rewrite (add_initial_line_newest l k _ Hk).
    2:{ apply Forall_forall. intros x Hx. rewrite Forall_forall in Hall.
        apply Hall. eapply elem_of_sublist; [exact Hx|].
        apply sublist_drop. }
    rewrite erase_while_over_drop, List.length_app, list.length_drop, List.length_app.
    simpl length.
    destruct (Nat.le_gt_cases (length c) 249) as [Hle|Hgt].
    + replace (length c - 250) with 0 by lia.
      replace (length c - 0 + 1 - 250) with 0 by lia.
      by replace (length c + 1 - 250) with 0 by lia.
    + replace (length c - (length c - 250) + 1 - 250) with 1 by lia.
      replace (length c + 1 - 250) with (S (length c - 250)) by lia.
      rewrite (drop_app_le c) by lia.
      rewrite (drop_app_le (drop _ c)) by (rewrite list.length_drop; lia).
      by rewrite list.drop_drop, Nat.add_1_r.
  - rewrite !app_nil_r. intros Hs. rewrite (IH Hs).
    unfold scan_line, add_initial_line. by rewrite Hk.
Qed.
End BufferMore.

(** ** More on the construction *)

Lemma loop_open_Some fs path c :
  fs !! path = Some c →
  loop_lines (ifstream_open fs path) = Str.lines c ∧
  loop_position (ifstream_open fs path) = offset_at_end c.
Proof.
  intros Hc. unfold loop_lines, loop_position, unread, ifstream_open, offset_at_end.
  rewrite Hc. simpl. split; [done|]. unfold end_position. simpl.
  by destruct c.
Qed.

Lemma loop_open_None fs path :
  fs !! path = None →
  loop_lines (ifstream_open fs path) = [] ∧
  loop_position (ifstream_open fs path) = 0%Z.
Proof.
  intros Hc. unfold loop_lines, loop_position, ifstream_open. by rewrite Hc.
Qed.

Lemma loop_lines_open fs path :
  loop_lines (ifstream_open fs path) = file_lines fs path.
Proof.
  unfold file_lines. destruct (fs !! path) as [c|] eqn:Hc.
  - by apply loop_open_Some.
  - by apply loop_open_None.
Qed.

Section Construction.
Variable get_sort_key : string → option N.

(** X6. The scan of a file that opens passes all its lines to the buffer,
    a trailing fragment included, and records the size of the file as its
    offset, or -1 when the file ends with a fragment. *)
Theorem scan_of_existing_file fs path m (c : string) :
  fs !! path = Some c →
  initial_lines_ (add_initial_lines get_sort_key fs path m) =
    foldl (λ b l, scan_line get_sort_key l b) (initial_lines_ m) (Str.lines c) ∧
  read_position_ (add_initial_lines get_sort_key fs path m) !! path =
    Some (if Str.ends_unterminated c then (-1)%Z else Z.of_nat (String.length c)).
Proof.
  intros Hc. rewrite add_initial_lines_spec. simpl.
  destruct (loop_open_Some fs path c Hc) as [-> ->].
  by rewrite lookup_insert_eq.
Qed.

Lemma construct_fold fs targets m :
  let m' := foldl (construct_target get_sort_key fs) m targets in
  callback_ m' = callback_ m ∧
  files_ m' = files_ m ++ ((λ t, t +:+ ".txt") <$> targets) ∧
  initial_lines_ m' =
    foldl (λ b l, scan_line get_sort_key l b) (initial_lines_ m)
      (targets ≫= λ t, file_lines fs (t +:+ ".1.txt") ++ file_lines fs (t +:+ ".txt")).
Proof.
  revert m; induction targets as [|t ts IH]; intros m; cbn zeta.
  - simpl. by rewrite app_nil_r.
  - cbn [foldl]. destruct (IH (construct_target get_sort_key fs m t)) as (-> & -> & ->).
    unfold construct_target. rewrite !add_initial_lines_spec. simpl.
    rewrite !loop_lines_open, !foldl_app, <- app_assoc. done.
Qed.

(** X7. The files the timer polls are the live files, one for each target
    and in the order of the targets; a rotated file is polled only if it is
    also the live file of a target. *)
Theorem construct_files fs targets callback :
  files_ (construct get_sort_key fs targets callback) = (λ t, t +:+ ".txt") <$> targets ∧
  callback_ (construct get_sort_key fs targets callback) = callback ∧
  (∀ t, t ∈ targets →
     t +:+ ".1.txt" ∈ files_ (construct get_sort_key fs targets callback) →
     ∃ t', t' ∈ targets ∧ t' +:+ ".txt" = t +:+ ".1.txt").
Proof.
  unfold construct.
  destruct (construct_fold fs targets (mk_log_monitor callback [] ∅ [])) as (-> & -> & _).
  simpl. repeat split. intros t _ Hin.
  apply list_elem_of_fmap in Hin as (t' & Heq & Ht'). eauto.
Qed.

(** X8. The buffer the constructor leaves is the scan, from the empty
    buffer, of the lines of the rotated file and then of the live file of
    each target, target after target; a file that cannot be opened
    contributes no line. *)
Theorem construct_initial_lines fs targets callback :
  get_initial_lines (construct get_sort_key fs targets callback) =
  foldl (λ b l, scan_line get_sort_key l b) []
    (targets ≫= λ t, file_lines fs (t +:+ ".1.txt") ++ file_lines fs (t +:+ ".txt")).
Proof.
  unfold construct, get_initial_lines.
  by destruct (construct_fold fs targets (mk_log_monitor callback [] ∅ [])) as (_ & _ & ->).
Qed.

(** The offset table after construction: an entry for the two files of
    every target, with the offset of a scan of the file. *)
Lemma construct_offsets fs targets m :
  let m' := foldl (construct_target get_sort_key fs) m targets in
  (∀ t, t ∈ targets →
     is_Some (read_position_ m' !! (t +:+ ".1.txt")) ∧
     is_Some (read_position_ m' !! (t +:+ ".txt"))) ∧
  (∀ f, is_Some (read_position_ m !! f) → is_Some (read_position_ m' !! f)) ∧
  ((∀ f pos, read_position_ m !! f = Some pos →
             pos = loop_position (ifstream_open fs f)) →
   ∀ f pos, read_position_ m' !! f = Some pos →
            pos = loop_position (ifstream_open fs f)).
Proof.
  revert m; induction targets as [|t ts IH]; intros m; cbn zeta.
  - simpl. split; [|done]. intros t Hin. by apply elem_of_nil in Hin.
  - cbn [foldl]. destruct (IH (construct_target get_sort_key fs m t)) as (Hin & Hmono & Hval).
    assert (∀ f, read_position_ (construct_target get_sort_key fs m t) !! f =
                 <[t +:+ ".txt" := loop_position (ifstream_open fs (t +:+ ".txt"))]>
                   (<[t +:+ ".1.txt" := loop_position (ifstream_open fs (t +:+ ".1.txt"))]>
                      (read_position_ m)) !! f) as Hrp.
    { intros f. unfold construct_target. by rewrite !add_initial_lines_spec. }
    split; [|split].
    + intros t' [-> | Ht']%elem_of_cons; [|by apply Hin].
      split; apply Hmono; rewrite Hrp.
      * destruct (decide (t +:+ ".txt" = t +:+ ".1.txt")) as [->|Hne].
        -- by rewrite lookup_insert_eq.
        -- by rewrite lookup_insert_ne, lookup_insert_eq.
      * by rewrite lookup_insert_eq.
    + intros f Hf. apply Hmono. rewrite Hrp.
      destruct (decide (t +:+ ".txt" = f)) as [->|?];
        [by rewrite lookup_insert_eq | rewrite lookup_insert_ne by done].
      destruct (decide (t +:+ ".1.txt" = f)) as [->|?];
        [by rewrite lookup_insert_eq | by rewrite lookup_insert_ne].
    + intros Hm. apply Hval. intros f pos. rewrite Hrp.
      destruct (decide (t +:+ ".txt" = f)) as [->|?];
        [rewrite lookup_insert_eq; congruence | rewrite lookup_insert_ne by done].
      destruct (decide (t +:+ ".1.txt" = f)) as [->|?];
        [rewrite lookup_insert_eq; congruence | rewrite lookup_insert_ne by done].
      apply Hm.
Qed.
End Construction.

(** ** More on the incremental read *)

Lemma lines_no_newline s : Forall (λ l, Str.no_newline l = true) (Str.lines s).
Proof.
  induction s as [|c s IH]; [constructor|]. simpl.
  destruct (Ascii.eqb c Str.newline) eqn:Hc; [by constructor|].
  destruct (Str.lines s) as [|l ls]; [|apply Forall_cons in IH as [Hl Hls]];
    constructor; simpl; rewrite ?Hc; done.
Qed.

Lemma join_lines_lines ls :
  Forall (λ l, Str.no_newline l = true) ls →
  Str.lines (join_lines ls) = ls ∧ Str.ends_unterminated (join_lines ls) = false.
Proof.
  induction 1 as [|l ls Hl _ [IH1 IH2]]; [done|]. simpl.
  destruct (lines_terminated l (join_lines ls) Hl) as [-> ->].
  by rewrite IH1.
Qed.

Lemma call_callback_offset fs path m (c : string) :
  fs !! path = Some c →
  read_position_ (call_callback fs path m).1 !! path =
  Some (match read_position_ m !! path with
        | Some pos => offset_after_read c pos
        | None => offset_at_end c
        end).
Proof.
  intros Hc. rewrite (call_callback_spec _ _ _ _ Hc); cbn zeta. simpl.
  rewrite lookup_insert_eq. f_equal.
  unfold seek_read_position. rewrite (file_size_Some _ _ _ Hc).
  destruct (read_position_ m !! path) as [pos|]; [|by apply loop_open_Some].
  unfold offset_after_read.
  destruct (Z.ltb_spec pos (Z.of_nat (String.length c))) as [Hlt|Hge].
  - unfold ifstream_open, seekg. rewrite Hc. simpl.
    destruct (Z.ltb_spec pos 0) as [|Hpos]; [done|].
    unfold loop_position, unread, end_position, offset_at_end. simpl.
    rewrite ends_unterminated_drop by lia.
    destruct (Str.drop (Z.to_nat pos) c) eqn:Hd.
    + pose proof (length_drop (Z.to_nat pos) c) as Hl. rewrite Hd in Hl.
      simpl in Hl. lia.
    + rewrite <- Hd, length_drop.
      destruct (Str.ends_unterminated c); [done|]. f_equal. lia.
  - destruct (Z.ltb_spec pos 0) as [|_]; [lia|]. by apply loop_open_Some.
Qed.

(** X9. The offset an incremental read of a file that opens leaves: 0
    when the recorded offset was negative (nothing is read), and otherwise
    the size of the file, or -1 when the file ends with a fragment; so it
    is always -1, 0 or the size of the file. *)
Theorem incremental_read_offset fs path m (c : string) :
  fs !! path = Some c →
  read_position_ (call_callback fs path m).1 !! path =
    Some (match read_position_ m !! path with
          | Some pos => if (pos <? 0)%Z then 0%Z
                        else if Str.ends_unterminated c then (-1)%Z
                        else Z.of_nat (String.length c)
          | None => if Str.ends_unterminated c then (-1)%Z
                    else Z.of_nat (String.length c)
          end) ∧
  (read_position_ (call_callback fs path m).1 !! path = Some (-1)%Z ∨
   read_position_ (call_callback fs path m).1 !! path = Some 0%Z ∨
   read_position_ (call_callback fs path m).1 !! path =
     Some (Z.of_nat (String.length c))).
Proof.
  intros Hc. rewrite (call_callback_offset _ _ _ _ Hc).
  unfold offset_after_read, offset_at_end. split; [done|].
  destruct (read_position_ m !! path) as [pos|];
    [destruct (pos <? 0)%Z; [right; by left|]|];
    (destruct (Str.ends_unterminated c); [by left | right; by right]).
Qed.

(** X10. When the file is the part already read followed by terminated
    lines, the incremental read invokes the callback with exactly these
    lines, in order (empty lines included), records the size of the file,
    and leaves the file up to date: the next tick does not read it. *)
Theorem appended_lines_delivered fs path m (p : string) (ls : list string) :
  Forall (λ l, Str.no_newline l = true) ls → ls ≠ [] →
  fs !! path = Some (p +:+ join_lines ls) →
  read_position_ m !! path = Some (Z.of_nat (String.length p)) →
  callback_ m = true →
  (call_callback fs path m).2 = ls ∧
  read_position_ (call_callback fs path m).1 !! path =
    Some (Z.of_nat (String.length (p +:+ join_lines ls))) ∧
  up_to_date fs (call_callback fs path m).1 path.
Proof.
  intros Hls Hne Hc Hpos Hcb.
  destruct (join_lines_lines ls Hls) as [Hlines Hend].
  assert (join_lines ls ≠ EmptyString) as Hj.
  { destruct ls as [|l ls]; [done|]. simpl. destruct l; discriminate. }
  rewrite (call_callback_resume _ _ _ _ _ Hc Hj Hpos), Hend, Hcb, Hlines.
  simpl. unfold up_to_date. simpl.
  rewrite (file_size_Some _ _ _ Hc), lookup_insert_eq. done.
Qed.

(** ** Ticks *)

Lemma timer_event_files_idle fs files m tr :
  (∀ f, f ∈ files → up_to_date fs m f) →
  foldl (timer_event_file fs) (m, tr) files = (m, tr).
Proof.
  induction files as [|f files IH]; intros Hup; [done|].
  cbn [foldl].
  assert (timer_event_file fs (m, tr) f = (m, tr)) as ->.
  { specialize (Hup f (list_elem_of_here _ _)). unfold up_to_date in Hup.
    unfold timer_event_file.
    destruct (file_size fs f) as [size|]; [|done].
    destruct (read_position_ m !! f) as [pos|]; [|done].
    subst pos. by rewrite Z.eqb_refl. }
  apply IH. intros f' Hin. apply Hup. by right.
Qed.

(** X11. When every polled file is missing, has no offset or has an offset
    equal to its size, a tick changes nothing and invokes no callback, and
    so does any number of ticks on that file system. *)
Theorem idle_tick fs m :
  (∀ f, f ∈ files_ m → up_to_date fs m f) →
  timer_event fs m = (m, []) ∧
  ∀ n, timer_events (replicate n fs) m = (m, []).
Proof.
  intros Hup.
  assert (timer_event fs m = (m, [])) as Htick by (by apply timer_event_files_idle).
  split; [done|].
  induction n as [|n IH]; [done|].
  cbn [replicate]. rewrite timer_events_cons, Htick. cbn [fst snd]. by rewrite IH.
Qed.

Lemma call_callback_mono fs f m path :
  is_Some (read_position_ m !! path) →
  is_Some (read_position_ (call_callback fs f m).1 !! path).
Proof.
  intros Hsome. destruct (decide (f = path)) as [->|Hne].
  - destruct (fs !! path) as [c|] eqn:Hc.
    + rewrite (call_callback_spec _ _ _ _ Hc); cbn zeta. simpl.
      by rewrite lookup_insert_eq.
    + by rewrite call_callback_closed.
  - destruct (call_callback_frame fs f m) as (_ & _ & Hfr). by rewrite Hfr.
Qed.

Lemma timer_event_files_keep fs files m tr :
  let r := foldl (timer_event_file fs) (m, tr) files in
  callback_ r.1 = callback_ m ∧ files_ r.1 = files_ m ∧
  (∀ path, is_Some (read_position_ m !! path) →
           is_Some (read_position_ r.1 !! path)) ∧
  (∀ path, path ∉ files →
           read_position_ r.1 !! path = read_position_ m !! path).
Proof.
  revert m tr; induction files as [|f files IH]; intros m tr; cbn zeta; [done|].
  cbn [foldl]. rewrite timer_event_file_trace.
  destruct (IH (timer_event_file fs (m, []) f).1
              (tr ++ (timer_event_file fs (m, []) f).2)) as (Hcb & Hf & Hmono & Hfr).
  destruct (timer_event_file_frame fs m f) as (Hcb1 & Hf1 & Hfr1).
  repeat split; [congruence | congruence | |].
  - intros path Hsome. apply Hmono.
    unfold timer_event_file.
    destruct (file_size fs f); [|done].
    destruct (read_position_ m !! f); [|done].
    destruct (negb _); [|done].
    pose proof (call_callback_mono fs f m path Hsome).
    by destruct (call_callback fs f m).
  - intros path [Hne Hnin]%not_elem_of_cons.
    rewrite Hfr by done. apply Hfr1. congruence.
Qed.

Lemma timer_events_keep fss m :
  callback_ (timer_events fss m).1 = callback_ m ∧
  files_ (timer_events fss m).1 = files_ m ∧
  (∀ path, is_Some (read_position_ m !! path) →
           is_Some (read_position_ (timer_events fss m).1 !! path)) ∧
  (∀ path, path ∉ files_ m →
           read_position_ (timer_events fss m).1 !! path = read_position_ m !! path).
Proof.
  revert m; induction fss as [|fs fss IH]; intros m; [done|].
  rewrite timer_events_cons. cbn [fst].
  destruct (IH (timer_event fs m).1) as (Hcb & Hf & Hmono & Hfr).
  destruct (timer_event_files_keep fs (files_ m) m []) as (Hcb1 & Hf1 & Hmono1 & Hfr1).
  fold (timer_event fs m) in Hcb1, Hf1, Hmono1, Hfr1.
  repeat split; [congruence | congruence | |].
  - intros path Hsome. by apply Hmono, Hmono1.
  - intros path Hnin. rewrite Hfr by (by rewrite Hf1). by apply Hfr1.
Qed.

(** X12. Ticks change neither the callback nor the list of polled files,
    and never the offset of a file that is not polled (such as a rotated
    file). *)
Theorem ticks_frame (fss : list (gmap string string)) (m : log_monitor) :
  callback_ (timer_events fss m).1 = callback_ m ∧
  files_ (timer_events fss m).1 = files_ m ∧
  (∀ path, path ∉ files_ m →
     read_position_ (timer_events fss m).1 !! path = read_position_ m !! path).
Proof.
  destruct (timer_events_keep fss m) as (? & ? & _ & ?). done.
Qed.

Section AfterConstruction.
Variable get_sort_key : string → option N.

(** X13. After construction and after any run of ticks, every polled file
    has an entry in the offset table, whether or not the file existed: the
    timer never skips a polled file for want of an offset. *)
Theorem polled_files_always_have_offsets fs targets callback
    (fss : list (gmap string string)) :
  polled_have_offsets
    (timer_events fss (construct get_sort_key fs targets callback)).1.
Proof.
  intros f. destruct (timer_events_keep fss (construct get_sort_key fs targets callback))
    as (_ & -> & Hmono & _).
  intros Hin. apply Hmono.
  unfold construct in *.
  destruct (construct_fold get_sort_key fs targets (mk_log_monitor callback [] ∅ []))
    as (_ & Hfiles & _).
  rewrite Hfiles in Hin. apply list_elem_of_fmap in Hin as (t & -> & Ht).
  by destruct (construct_offsets get_sort_key fs targets
                 (mk_log_monitor callback [] ∅ [])) as (Hin & _); apply Hin.
Qed.

(** X14. When no live file ends with a fragment, a tick on the file
    system of the construction changes nothing and invokes no callback:
    what the historical scan read is not delivered again. *)
Theorem first_tick_idle fs targets callback :
  (∀ t c, t ∈ targets → fs !! (t +:+ ".txt") = Some c →
          Str.ends_unterminated c = false) →
  timer_event fs (construct get_sort_key fs targets callback) =
  (construct get_sort_key fs targets callback, []).
Proof.
  intros Hterm. apply timer_event_files_idle. intros f Hin.
  unfold construct in *.
  destruct (construct_fold get_sort_key fs targets (mk_log_monitor callback [] ∅ []))
    as (_ & Hfiles & _).
  rewrite Hfiles in Hin. apply list_elem_of_fmap in Hin as (t & -> & Ht).
  unfold up_to_date, file_size.
  destruct (fs !! (t +:+ ".txt")) as [c|] eqn:Hc; [|done]. simpl.
  destruct (read_position_ _ !! _) as [pos|] eqn:Hpos; [|done].
  destruct (construct_offsets get_sort_key fs targets
              (mk_log_monitor callback [] ∅ [])) as (_ & _ & Hval).
  apply Hval in Hpos; [|intros f pos' H; simpl in H; by rewrite lookup_empty in H].
  rewrite Hpos. destruct (loop_open_Some fs _ c Hc) as [_ ->].
  unfold offset_at_end. by rewrite (Hterm t c Ht Hc).
Qed.
End AfterConstruction.

(** ** What the callback receives *)

Section Trace.
Variable P : string → Prop.
Variable Inv : log_monitor → Prop.
Hypothesis call_callback_keeps :
  ∀ fs f m, Inv m → Inv (call_callback fs f m).1 ∧ Forall P (call_callback fs f m).2.

Lemma timer_event_file_Forall fs m f :
  Inv m →
  Inv (timer_event_file fs (m, []) f).1 ∧ Forall P (timer_event_file fs (m, []) f).2.
Proof.
  intros Hm. unfold timer_event_file.
  destruct (file_size fs f); [|by split].
  destruct (read_position_ m !! f); [|by split].
  destruct (negb _); [|by split].
  destruct (call_callback_keeps fs f m Hm) as [? ?].
  by destruct (call_callback fs f m).
Qed.

Lemma timer_event_files_Forall fs files m tr :
  Inv m → Forall P tr →
  Inv (foldl (timer_event_file fs) (m, tr) files).1 ∧
  Forall P (foldl (timer_event_file fs) (m, tr) files).2.
Proof.
  revert m tr; induction files as [|f files IH]; intros m tr Hm Htr; [done|].
  cbn [foldl]. rewrite timer_event_file_trace.
  destruct (timer_event_file_Forall fs m f Hm) as [? ?].
  apply IH; [done|]. by apply Forall_app.
Qed.

Lemma timer_events_Forall fss m :
  Inv m → Inv (timer_events fss m).1 ∧ Forall P (timer_events fss m).2.
Proof.
  revert m; induction fss as [|fs fss IH]; intros m Hm; [by split|].
  rewrite timer_events_cons. cbn [fst snd].
  destruct (timer_event_files_Forall fs (files_ m) m [] Hm (Forall_nil_2 _)) as [H1 H2].
  fold (timer_event fs m) in H1, H2.
  destruct (IH _ H1) as [? ?]. split; [done|]. by apply Forall_app.
Qed.
End Trace.

Lemma call_callback_trace fs f m :
  (call_callback fs f m).2 = [] ∨
  callback_ m = true ∧ ∃ s, (call_callback fs f m).2 = Str.lines s.
Proof.
  destruct (fs !! f) as [c|] eqn:Hc; [|left; by rewrite call_callback_closed].
  rewrite (call_callback_spec _ _ _ _ Hc); cbn zeta. simpl.
  destruct (callback_ m); [|by left]. unfold loop_lines.
  destruct (failbit _); [by left|]. right. eauto.
Qed.

(** X15. Whatever the ticks and the files, no line passed to the callback
    holds a line terminator. *)
Theorem delivered_lines_have_no_newline (fss : list (gmap string string))
    (m : log_monitor) :
  Forall (λ l, Str.no_newline l = true) (timer_events fss m).2.
Proof.
  apply (timer_events_Forall _ (λ _, True)); [|done].
  intros fs f m' _. split; [done|].
  destruct (call_callback_trace fs f m') as [-> | (_ & s & ->)];
    [constructor | apply lines_no_newline].
Qed.

(** X16. A monitor without a callback invokes nothing, and its offsets
    advance exactly as those of a monitor with a callback: the lines are
    consumed and lost. *)
Theorem empty_callback_consumes_lines (fss : list (gmap string string))
    (m : log_monitor) :
  callback_ m = false →
  (timer_events fss m).2 = [] ∧
  read_position_ (timer_events fss m).1 =
    read_position_
      (timer_events fss
         (mk_log_monitor true (initial_lines_ m) (read_position_ m) (files_ m))).1.
Proof.
  intros Hcb. split.
  - assert (Forall (λ _, False) (timer_events fss m).2) as H.
    { apply (timer_events_Forall _ (λ m, callback_ m = false)); [|done].
      intros fs f m' Hm'. destruct (call_callback_frame fs f m') as (-> & _).
      split; [done|].
      destruct (call_callback_trace fs f m') as [-> | (? & _)]; [constructor | congruence]. }
    destruct (timer_events fss m).2 as [|l t]; [done|].
    by apply Forall_cons in H as [[] _].
  - set (m2 := mk_log_monitor true (initial_lines_ m) (read_position_ m) (files_ m)).
    assert (read_position_ m = read_position_ m2 ∧ files_ m = files_ m2) as Hrel by done.
    clearbody m2. clear Hcb. revert m m2 Hrel.
    assert (∀ fs f m m2, read_position_ m = read_position_ m2 →
              read_position_ (call_callback fs f m).1 =
              read_position_ (call_callback fs f m2).1) as Hcall.
    { intros fs f m m2 Heq. destruct (fs !! f) as [c|] eqn:Hc.
      - rewrite !(call_callback_spec _ _ _ _ Hc); cbn zeta. simpl.
        unfold seek_read_position. by rewrite Heq.
      - by rewrite !call_callback_closed. }
    assert (∀ fs files m m2 tr tr2,
              read_position_ m = read_position_ m2 ∧ files_ m = files_ m2 →
              read_position_ (foldl (timer_event_file fs) (m, tr) files).1 =
              read_position_ (foldl (timer_event_file fs) (m2, tr2) files).1 ∧
              files_ (foldl (timer_event_file fs) (m, tr) files).1 =
              files_ (foldl (timer_event_file fs) (m2, tr2) files).1) as Hfiles.
    { intros fs files. induction files as [|f files IH]; intros m m2 tr tr2 [Hrp Hf];
        [done|].
      cbn [foldl]. rewrite (timer_event_file_trace fs m), (timer_event_file_trace fs m2).
      apply IH.
      destruct (timer_event_file_frame fs m f) as (_ & -> & _).
      destruct (timer_event_file_frame fs m2 f) as (_ & -> & _).
      split; [|done]. unfold timer_event_file. rewrite Hrp.
      destruct (file_size fs f); [|done].
      destruct (read_position_ m2 !! f); [|done].
      destruct (negb _); [|done].
      specialize (Hcall fs f m m2 Hrp).
      by destruct (call_callback fs f m), (call_callback fs f m2). }
    induction fss as [|fs fss IH]; intros m m2 [Hrp Hf]; [done|].
    rewrite !timer_events_cons. cbn [fst]. apply IH.
    unfold timer_event. rewrite Hf. by apply Hfiles.
Qed.

(** ** Settling on a terminated file *)

Lemma timer_event_offset fs m path (c : string) (pos : Z) :
  NoDup (files_ m) → path ∈ files_ m →
  fs !! path = Some c →
  read_position_ m !! path = Some pos →
  read_position_ (timer_event fs m).1 !! path =
  Some (if (pos =? Z.of_nat (String.length c))%Z then pos
        else offset_after_read c pos).
Proof.
  intros Hnd Hin Hc Hpos.
  destruct (Z.eqb_spec pos (Z.of_nat (String.length c))) as [Heq|Hne].
  - unfold timer_event.
    apply list_elem_of_split in Hin as (pre & post & Hfiles).
    rewrite Hfiles in Hnd. apply NoDup_app in Hnd as (_ & Hpre & Hpost).
    apply NoDup_cons in Hpost as [Hpost _].
    assert (path ∉ pre) as Hnpre.
    { intros Hin. apply (Hpre _ Hin). by left. }
    rewrite Hfiles, foldl_app. cbn [foldl].
    destruct (timer_event_files_frame fs pre m [] path Hnpre)
      as (m1 & t1 & -> & _ & _ & Hp1).
    assert (timer_event_file fs (m1, [] ++ t1) path = (m1, [] ++ t1)) as ->.
    { unfold timer_event_file. rewrite (file_size_Some _ _ _ Hc), Hp1, Hpos.
      subst pos. by rewrite Z.eqb_refl. }
    destruct (timer_event_files_frame fs post m1 ([] ++ t1) path Hpost)
      as (m3 & t3 & -> & _ & _ & Hp3).
    simpl. by rewrite Hp3, Hp1.
  - destruct (timer_event_polled fs m path c pos Hnd Hin Hc Hpos Hne)
      as (m1 & t1 & t2 & m3 & -> & _ & Hp1 & _ & _ & Hp3).
    simpl. by rewrite Hp3, (call_callback_offset _ _ _ _ Hc), Hp1.
Qed.

(** X17. For a polled file that does not end with a fragment, whatever
    offset is recorded, the offset recorded after two ticks is the size of
    the file, and after one tick already when the offset was not
    negative. *)
Theorem terminated_file_settles (fs1 fs2 : gmap string string) (m : log_monitor)
    (path c : string) (pos : Z) :
  NoDup (files_ m) → path ∈ files_ m →
  read_position_ m !! path = Some pos →
  fs1 !! path = Some c → fs2 !! path = Some c →
  Str.ends_unterminated c = false →
  read_position_ (timer_events [fs1; fs2] m).1 !! path =
    Some (Z.of_nat (String.length c)) ∧
  ((0 ≤ pos)%Z →
   read_position_ (timer_event fs1 m).1 !! path = Some (Z.of_nat (String.length c))).
Proof.
  intros Hnd Hin Hpos Hc1 Hc2 Hend.
  pose proof (timer_event_offset fs1 m path c pos Hnd Hin Hc1 Hpos) as H1.
  destruct (timer_event_files_keep fs1 (files_ m) m []) as (_ & Hf1 & _).
  fold (timer_event fs1 m) in Hf1.
  assert (offset_at_end c = Z.of_nat (String.length c)) as Hoff.
  { unfold offset_at_end. by rewrite Hend. }
  split.
  - rewrite !timer_events_cons. cbn [fst]. unfold timer_events at 1. simpl.
    rewrite (timer_event_offset fs2 _ path c _ ltac:(by rewrite Hf1) ltac:(by rewrite Hf1) Hc2 H1).
    f_equal. unfold offset_after_read. rewrite Hoff.
    destruct (Z.eqb_spec pos (Z.of_nat (String.length c))) as [->|_].
    { by rewrite Z.eqb_refl. }
    destruct (Z.ltb_spec pos 0) as [_|_]; [|by rewrite Z.eqb_refl].
    by destruct (Z.eqb_spec 0 (Z.of_nat (String.length c))).
  - intros Hge. rewrite H1. f_equal. unfold offset_after_read. rewrite Hoff.
    destruct (Z.eqb_spec pos (Z.of_nat (String.length c))) as [->|_]; [done|].
    by destruct (Z.ltb_spec pos 0) as [?|_]; [lia|].
Qed.

(** * Examples *)

(** The example of the specification: the rotated file holds the keys 10
    and 20, the live file the key 30 and a line without key; a line with
    key 40 is then appended and one tick follows. *)
Example end_to_end :
  let fs := <["app.1.txt" := "10 a" +:+ Str.nl +:+ "20 b" +:+ Str.nl]>
              (Sample.file ("30 c" +:+ Str.nl +:+ "bad" +:+ Str.nl)) in
  let fs' := <["app.txt" := "30 c" +:+ Str.nl +:+ "bad" +:+ Str.nl +:+ "40 d" +:+ Str.nl]> fs in
  let m := construct Sample.sort_key fs ["app"] true in
  get_initial_lines m = [(10%N, "10 a"); (20%N, "20 b"); (30%N, "30 c")] ∧
  files_ m = ["app.txt"] ∧
  read_position_ m !! "app.txt" = Some 9%Z ∧
  (timer_event fs m).2 = [] ∧
  (timer_event fs' m).2 = ["40 d"] ∧
  read_position_ (timer_event fs' m).1 !! "app.txt" = Some 14%Z ∧
  get_initial_lines (timer_event fs' m).1 = get_initial_lines m.
Proof. vm_compute. repeat split. Qed.

Example scan_example :
  foldl (λ b l, scan_line Sample.sort_key l b) [] ["20 b"; "10 a"; "x"; "30 c"; "20 d"]
  = [(20%N, "20 b"); (20%N, "20 d"); (30%N, "30 c")].
Proof. reflexivity. Qed.

Lemma equal_keys_keep_insertion_order_witness :
  let lines := ["10 a"; "20 b"; "20 b"; "10 c"] in
  foldl (λ b l, scan_line Sample.sort_key l b) [] lines !! 0 = Some (10%N, "10 a") ∧
  foldl (λ b l, scan_line Sample.sort_key l b) [] lines !! 1 = Some (10%N, "10 c") ∧
  0 < 1.
Proof.
  intros lines. split; [reflexivity|]. split; [reflexivity|].
  apply (proj2 (equal_keys_keep_insertion_order Sample.sort_key lines 10%N)
           "10 a" "10 c" 0 1); [|reflexivity|reflexivity].
  intros i j Hi Hj.
  destruct i as [|[|[|[|i]]]]; simpl in Hi; try discriminate.
  destruct j as [|[|[|[|j]]]]; simpl in Hj; try discriminate. lia.
Defined.

Lemma older_line_discarded_at_capacity_witness :
  length Sample.full_buffer = 250 ∧
  add_initial_line Sample.sort_key "5 old" Sample.full_buffer = (Sample.full_buffer, false) ∧
  scan_line Sample.sort_key "5 old" Sample.full_buffer = Sample.full_buffer.
Proof.
  split; [reflexivity|].
  apply (older_line_discarded_at_capacity Sample.sort_key "5 old" 5%N Sample.full_buffer).
  - reflexivity.
  - by_evaluation.
  - reflexivity.
Defined.

Lemma tail_read_counterexample :
  let fs := Sample.file ("A" +:+ Str.nl +:+ "B" +:+ Str.nl +:+ "C") in
  (call_callback fs "app.txt" (Sample.monitor 0)).2 = ["A"; "B"; "C"] ∧
  (call_callback fs "app.txt" (Sample.monitor 0)).2 ≠ ["A"; "B"] ∧
  read_position_ (call_callback fs "app.txt" (Sample.monitor 0)).1 !! "app.txt"
    = Some (-1)%Z ∧
  read_position_ (call_callback fs "app.txt" (Sample.monitor 0)).1 !! "app.txt"
    ≠ Some 4%Z.
Proof. vm_compute. repeat split; discriminate. Qed.

Lemma tail_read_delivers_lines_and_fragment_witness :
  (call_callback (Sample.file ("A" +:+ Str.nl +:+ "B" +:+ Str.nl +:+ "C"))
     "app.txt" (Sample.monitor 0)).2 = ["A"; "B"; "C"] ∧
  (call_callback (Sample.file ("x" +:+ Str.nl +:+ "A" +:+ Str.nl +:+ "B" +:+ Str.nl))
     "app.txt" (Sample.monitor 2)).2 = ["A"; "B"] ∧
  read_position_
    (call_callback (Sample.file ("x" +:+ Str.nl +:+ "A" +:+ Str.nl +:+ "B" +:+ Str.nl))
       "app.txt" (Sample.monitor 2)).1 !! "app.txt" = Some 6%Z.
Proof.
  split.
  - apply (tail_read_delivers_lines_and_fragment
             (Sample.file ("A" +:+ Str.nl +:+ "B" +:+ Str.nl +:+ "C"))
             "app.txt" (Sample.monitor 0) EmptyString "A" "B" "C");
      try reflexivity. discriminate.
  - apply (tail_read_delivers_lines_and_fragment
             (Sample.file ("x" +:+ Str.nl +:+ "A" +:+ Str.nl +:+ "B" +:+ Str.nl))
             "app.txt" (Sample.monitor 2) ("x" +:+ Str.nl) "A" "B" EmptyString);
      reflexivity.
Defined.

Lemma missing_file_counterexample :
  (∅ : gmap string string) !! "app.txt" = None ∧
  read_position_
    (add_initial_lines Sample.sort_key ∅ "app.txt" (mk_log_monitor true [] ∅ []))
    !! "app.txt" = Some 0%Z ∧
  read_position_
    (add_initial_lines Sample.sort_key ∅ "app.txt" (mk_log_monitor true [] ∅ []))
    !! "app.txt" ≠ None.
Proof. vm_compute. repeat split; discriminate. Qed.

Lemma missing_file_scan_witness :
  initial_lines_
    (add_initial_lines Sample.sort_key ∅ "app.txt" (mk_log_monitor true [] ∅ [])) = [] ∧
  read_position_
    (add_initial_lines Sample.sort_key ∅ "app.txt" (mk_log_monitor true [] ∅ []))
    !! "app.txt" = Some 0%Z.
Proof.
  apply (missing_file_scan Sample.sort_key ∅ "app.txt" (mk_log_monitor true [] ∅ [])).
  reflexivity.
Defined.

Lemma rewritten_file_counterexample :
  let read1 := call_callback (Sample.file ("a" +:+ Str.nl +:+ "b" +:+ Str.nl))
                 "app.txt" (Sample.monitor 0) in
  let read2 := call_callback (Sample.file ("hello" +:+ Str.nl)) "app.txt" read1.1 in
  read1.2 = ["a"; "b"] ∧
  read_position_ read1.1 !! "app.txt" = Some 4%Z ∧
  read2.2 = ["o"] ∧ read2.2 ≠ ["hello"].
Proof. vm_compute. repeat split; discriminate. Qed.

Lemma rewritten_file_read_from_start_witness :
  (call_callback (Sample.file ("d" +:+ Str.nl)) "app.txt" (Sample.monitor 4)).2 = ["d"] ∧
  read_position_
    (call_callback (Sample.file ("d" +:+ Str.nl)) "app.txt" (Sample.monitor 4)).1
    !! "app.txt" = Some 2%Z.
Proof.
  refine (proj2 (rewritten_file_read_from_start (Sample.file ("d" +:+ Str.nl))
            "app.txt" (Sample.monitor 4) ("d" +:+ Str.nl) 4%Z _ _ _) "a" "b" "d" _ _ _ _);
    try reflexivity.
  vm_compute. lia.
Defined.

(** C8, at the failing input. The file holds the line [bad], for which the
    extractor yields no key, and then the fragment [30 c]. The scan keeps
    [bad] out of the buffer, and an incremental read from the start invokes
    the callback with [bad]; but the offset the scan records is -1, the
    value of [tellg] at the end of the file, and not a position past
    [bad] (4 or more). *)
Lemma line_without_key_before_fragment :
  let fs := Sample.file ("bad" +:+ Str.nl +:+ "30 c") in
  let m := add_initial_lines Sample.sort_key fs "app.txt"
             (mk_log_monitor true [] ∅ []) in
  Sample.sort_key "bad" = None ∧
  initial_lines_ m = [(30%N, "30 c")] ∧
  (call_callback fs "app.txt" (Sample.monitor 0)).2 = ["bad"; "30 c"] ∧
  read_position_ m !! "app.txt" = Some (-1)%Z ∧
  ¬ (∃ pos, read_position_ m !! "app.txt" = Some pos ∧ (4 ≤ pos)%Z).
Proof.
  vm_compute. repeat split. intros (pos & [= <-] & Hle). by apply Hle.
Qed.


Lemma no_line_read_resets_offset_witness :
  read_position_ (Sample.monitor 7) !! "app.txt" = Some 7%Z ∧
  read_position_ (call_callback (Sample.file EmptyString) "app.txt" (Sample.monitor 7)).1
    !! "app.txt" = Some 0%Z ∧
  read_position_
    (call_callback (Sample.file ("A" +:+ Str.nl)) "app.txt" (Sample.monitor (-1))).1
    !! "app.txt" = Some 0%Z.
Proof.
  split; [reflexivity|]. split.
  - apply (no_line_read_resets_offset (Sample.file EmptyString) "app.txt"
             (Sample.monitor 7) EmptyString); reflexivity.
  - apply (no_line_read_resets_offset (Sample.file ("A" +:+ Str.nl)) "app.txt"
             (Sample.monitor (-1)) ("A" +:+ Str.nl)); reflexivity.
Defined.

Lemma unterminated_tail_reread_witness :
  let c := "A" +:+ Str.nl +:+ "B" +:+ Str.nl +:+ "C" in
  let fs := Sample.file c in
  read_position_ (call_callback fs "app.txt" (Sample.monitor 0)).1 !! "app.txt"
    = Some (-1)%Z ∧
  read_position_ (timer_events [fs; fs; fs] (Sample.monitor (-1))).1 !! "app.txt"
    = Some 0%Z ∧
  delivers
    (timer_events [fs; fs] (timer_events [fs; fs; fs] (Sample.monitor (-1))).1).2 c.
Proof.
  intros c fs.
  destruct (unterminated_tail_reread "app.txt" c eq_refl) as [Hread Hticks].
  split.
  - apply (Hread fs (Sample.monitor 0) 0%Z); [reflexivity | reflexivity | lia].
  - destruct (Hticks (Sample.monitor (-1)) [fs; fs; fs]) as (_ & _ & Hpos & Hnext).
    + by_evaluation.
    + reflexivity.
    + reflexivity.
    + repeat constructor.
    + split.
      * apply Hpos. by_evaluation.
      * exact (Hnext fs fs eq_refl eq_refl).
Defined.

(** ** Examples of the further properties *)

Lemma full_buffer_sorted : sorted_by_key Sample.full_buffer.
Proof.
  unfold Sample.full_buffer, sorted_by_key.
  assert (∀ n s, StronglySorted key_le
                   ((λ i, (N.of_nat (10 + i), "line")) <$> seq s n)) as H; [|apply H].
  induction n as [|n IH]; intros s; [constructor|].
  simpl. constructor; [apply IH|].
  apply Forall_fmap, Forall_forall. intros i Hi%elem_of_seq.
  unfold key_le. simpl. lia.
Qed.

Lemma newest_line_is_last_witness :
  last (scan_line Sample.sort_key "300 new" Sample.full_buffer) = Some (300%N, "300 new").
Proof.
  apply (newest_line_is_last Sample.sort_key "300 new" 300%N Sample.full_buffer).
  - reflexivity.
  - by_evaluation.
Defined.

Lemma scan_line_keeps_or_discards_witness :
  scan_line Sample.sort_key "5 old" [(10%N, "10 a"); (20%N, "20 b")]
    = [(10%N, "10 a"); (20%N, "20 b")] ∧
  (15%N, "15 mid") ∈ scan_line Sample.sort_key "15 mid" [(10%N, "10 a"); (20%N, "20 b")] ∧
  length (scan_line Sample.sort_key "10 tie" Sample.full_buffer) = 250.
Proof.
  assert (sorted_by_key [(10%N, "10 a"); (20%N, "20 b")]) as Hs.
  { repeat constructor. unfold key_le. simpl. lia. }
  split; [|split].
  - apply (proj1 (scan_line_keeps_or_discards Sample.sort_key "5 old" 5%N
                    [(10%N, "10 a"); (20%N, "20 b")] eq_refl Hs ltac:(simpl; lia))
             (10%N, "10 a") eq_refl).
    reflexivity.
  - apply (proj2 (scan_line_keeps_or_discards Sample.sort_key "15 mid" 15%N
                    [(10%N, "10 a"); (20%N, "20 b")] eq_refl Hs ltac:(simpl; lia))).
    intros front [= <-]. simpl. lia.
  - apply (proj2 (scan_line_keeps_or_discards Sample.sort_key "10 tie" 10%N
                    Sample.full_buffer eq_refl full_buffer_sorted ltac:(vm_compute; lia))).
    intros front [= <-]. simpl. lia.
Defined.

Lemma buffer_entries_are_scanned_lines_witness :
  "20 d" ∈ ["20 b"; "10 a"; "x"; "30 c"; "20 d"] ∧
  Sample.sort_key "20 d" = Some 20%N.
Proof.
  apply (buffer_entries_are_scanned_lines Sample.sort_key
           ["20 b"; "10 a"; "x"; "30 c"; "20 d"] (20%N, "20 d")).
  by_evaluation.
Defined.

Lemma chronological_scan_keeps_last_witness :
  foldl (λ b l, scan_line Sample.sort_key l b) [] ["10 a"; "x"; "20 b"; "20 c"; "30 d"]
  = [(10%N, "10 a"); (20%N, "20 b"); (20%N, "20 c"); (30%N, "30 d")].
Proof.
  apply (chronological_scan_keeps_last Sample.sort_key
           ["10 a"; "x"; "20 b"; "20 c"; "30 d"]).
  vm_compute. repeat constructor; discriminate.
Defined.

Lemma scan_of_existing_file_witness :
  let m := add_initial_lines Sample.sort_key
             (Sample.file ("10 a" +:+ Str.nl +:+ "20 b")) "app.txt"
             (mk_log_monitor true [] ∅ []) in
  initial_lines_ m = [(10%N, "10 a"); (20%N, "20 b")] ∧
  read_position_ m !! "app.txt" = Some (-1)%Z.
Proof.
  apply (scan_of_existing_file Sample.sort_key
           (Sample.file ("10 a" +:+ Str.nl +:+ "20 b")) "app.txt"
           (mk_log_monitor true [] ∅ []) ("10 a" +:+ Str.nl +:+ "20 b")).
  reflexivity.
Defined.

Lemma incremental_read_offset_witness :
  read_position_
    (call_callback (Sample.file ("A" +:+ Str.nl +:+ "B" +:+ Str.nl)) "app.txt"
       (Sample.monitor 2)).1 !! "app.txt" = Some 4%Z ∧
  read_position_
    (call_callback (Sample.file ("A" +:+ Str.nl +:+ "B")) "app.txt"
       (Sample.monitor 9)).1 !! "app.txt" = Some (-1)%Z.
Proof.
  split.
  - apply (incremental_read_offset (Sample.file ("A" +:+ Str.nl +:+ "B" +:+ Str.nl))
             "app.txt" (Sample.monitor 2) ("A" +:+ Str.nl +:+ "B" +:+ Str.nl)).
    reflexivity.
  - apply (incremental_read_offset (Sample.file ("A" +:+ Str.nl +:+ "B"))
             "app.txt" (Sample.monitor 9) ("A" +:+ Str.nl +:+ "B")).
    reflexivity.
Defined.

Lemma appended_lines_delivered_witness :
  let fs := Sample.file ("old" +:+ Str.nl +:+ join_lines ["n1"; EmptyString; "n3"]) in
  (call_callback fs "app.txt" (Sample.monitor 4)).2 = ["n1"; EmptyString; "n3"] ∧
  read_position_ (call_callback fs "app.txt" (Sample.monitor 4)).1 !! "app.txt"
    = Some 11%Z ∧
  up_to_date fs (call_callback fs "app.txt" (Sample.monitor 4)).1 "app.txt".
Proof.
  apply (appended_lines_delivered
           (Sample.file ("old" +:+ Str.nl +:+ join_lines ["n1"; EmptyString; "n3"]))
           "app.txt" (Sample.monitor 4) ("old" +:+ Str.nl) ["n1"; EmptyString; "n3"]).
  - by_evaluation.
  - discriminate.
  - reflexivity.
  - reflexivity.
  - reflexivity.
Defined.

Lemma idle_tick_witness :
  timer_event (Sample.file ("A" +:+ Str.nl)) (Sample.monitor 2)
  = (Sample.monitor 2, []).
Proof.
  apply (idle_tick (Sample.file ("A" +:+ Str.nl)) (Sample.monitor 2)).
  intros f Hin. apply list_elem_of_singleton in Hin as ->. reflexivity.
Defined.

Lemma first_tick_idle_witness :
  let fs := <["app.1.txt" := "10 a" +:+ Str.nl +:+ "20 b"]>
              (Sample.file ("30 c" +:+ Str.nl +:+ "bad" +:+ Str.nl)) in
  timer_event fs (construct Sample.sort_key fs ["app"; "other"] true)
  = (construct Sample.sort_key fs ["app"; "other"] true, []).
Proof.
  intros fs.
  apply (first_tick_idle Sample.sort_key fs ["app"; "other"] true).
  intros t c Hin Hc.
  apply elem_of_cons in Hin as [-> | Hin].
  - vm_compute in Hc. injection Hc as <-. reflexivity.
  - apply list_elem_of_singleton in Hin as ->. vm_compute in Hc. discriminate.
Defined.

Lemma empty_callback_consumes_lines_witness :
  let fs := Sample.file ("A" +:+ Str.nl +:+ "B" +:+ Str.nl) in
  let m := mk_log_monitor false [] {["app.txt" := 0%Z]} ["app.txt"] in
  (timer_events [fs] m).2 = [] ∧
  read_position_ (timer_events [fs] m).1 !! "app.txt" = Some 4%Z.
Proof.
  intros fs m.
  destruct (empty_callback_consumes_lines [fs] m eq_refl) as [Htr Hrp].
  split; [exact Htr|]. rewrite Hrp. reflexivity.
Defined.

Lemma terminated_file_settles_witness :
  let fs := Sample.file ("A" +:+ Str.nl +:+ "B" +:+ Str.nl) in
  read_position_ (timer_events [fs; fs] (Sample.monitor (-1))).1 !! "app.txt"
    = Some 4%Z ∧
  read_position_ (timer_event fs (Sample.monitor 7)).1 !! "app.txt" = Some 4%Z.
Proof.
  intros fs. split.
  - apply (terminated_file_settles fs fs (Sample.monitor (-1)) "app.txt"
             ("A" +:+ Str.nl +:+ "B" +:+ Str.nl) (-1)%Z);
      try reflexivity; by_evaluation.
  - apply (terminated_file_settles fs fs (Sample.monitor 7) "app.txt"
             ("A" +:+ Str.nl +:+ "B" +:+ Str.nl) 7%Z);
      try reflexivity; by_evaluation.
Defined.
